(** * The composite note-taking model of [composite_pattern_notes.py]

    A shallow embedding of the [NoteComponent] class hierarchy.  Python
    objects live in a store and are named by their address, so that
    [list.remove], which compares by object identity for classes that
    define no [__eq__], can be stated as the source has it.  Methods are
    computations in a small state-and-exception monad over that store. *)

From Stdlib Require Import ZArith Ascii String.
From stdpp Require Import base tactics option list strings relations.

Open Scope Z_scope.

(** ** Python strings *)

Module PyStr.

Definition LF : ascii := ascii_of_nat 10.
Definition nl : string := String LF "".

Definition is_LF (c : ascii) : bool := Ascii.eqb c LF.

(** [s * n] on a [str]: [n] copies of [s], none when [n <= 0].  This is
    the multiplication for the counts Python accepts, from [-2^63] to
    what fits in memory; outside of them Python raises [OverflowError]
    or [MemoryError], which [mul] does not have. *)
Fixpoint repeat_nat (s : string) (n : nat) : string :=
  match n with
  | O => ""
  | S n => s +:+ repeat_nat s n
  end.

Definition mul (s : string) (n : Z) : string := repeat_nat s (Z.to_nat n).

(** [s.split('\n')]: the pieces between line feeds, never empty. *)
Fixpoint split_nl (s : string) : list string :=
  match s with
  | EmptyString => [""]
  | String c s' =>
      if is_LF c then "" :: split_nl s'
      else match split_nl s' with
           | [] => [String c ""]
           | l :: ls => String c l :: ls
           end
  end.

(** [sep.join(parts)]. *)
Definition join (sep : string) (parts : list string) : string :=
  String.concat sep parts.

(** Truth value of a [str]: non-empty. *)
Definition truthy (s : string) : bool :=
  match s with EmptyString => false | String _ _ => true end.

(** No line feed occurs in [s]. *)
Fixpoint one_line (s : string) : bool :=
  match s with
  | EmptyString => true
  | String c s' => negb (is_LF c) && one_line s'
  end.

(** [s.startswith(p)]. *)
Fixpoint startswith (p s : string) : bool :=
  match p, s with
  | EmptyString, _ => true
  | String a p', String b s' => Ascii.eqb a b && startswith p' s'
  | String _ _, EmptyString => false
  end.

(** The lines a string is made of: every maximal run of characters
    closed by a line feed, and the run after the last line feed when it
    is not empty. *)
Definition lines (s : string) : list string :=
  let ps := split_nl s in
  match last ps with
  | Some "" => removelast ps
  | _ => ps
  end.

(** Each string of [ls] closed by a line feed, one after the other. *)
Definition unlines (ls : list string) : string :=
  String.concat "" (map (fun l => l +:+ nl) ls).

End PyStr.

(** ** The object store *)

(** The address of an object: what [id()] and [is] observe. *)
Definition ref := nat.
Bind Scope nat_scope with ref.

(** [dict] of [str] to [str]: insertion ordered. *)
Definition dict := list (string * string).

(** One object of a concrete [NoteComponent] class, with its fields. *)
Inductive obj : Type :=
  | Heading (text : string)
  | Subheading (text : string) (level : Z)
  | Text (content : string)
  | CodeBlock (code language : string)
  | Diagram (content diagram_type : string)
  | Section (title : string) (components : list ref)
  | Note (title : string) (components : list ref) (metadata : dict).

Definition heap := list obj.

(** ** Exceptions and the method monad *)

Inductive exn : Type :=
  | ValueError       (* list.remove(x): x not in list *)
  | AttributeError   (* the class has no such method *)
  | RecursionError   (* maximum recursion depth exceeded *)
  | BadRef.          (* an address outside the store; no Python program
                        produces one *)

Inductive outcome (A : Type) : Type :=
  | Return (a : A)
  | Raise (e : exn).
Arguments Return {A} a.
Arguments Raise {A} e.

Definition py (A : Type) : Type := heap -> outcome A * heap.

Definition ret {A} (a : A) : py A := fun h => (Return a, h).
Definition raise {A} (e : exn) : py A := fun h => (Raise e, h).
Definition bind {A B} (m : py A) (k : A -> py B) : py B :=
  fun h => match m h with
           | (Return a, h') => k a h'
           | (Raise e, h') => (Raise e, h')
           end.

Declare Scope py_scope.
Delimit Scope py_scope with py.
Notation "x <- m ;; k" := (bind m (fun x => k))
  (at level 100, m at next level, right associativity) : py_scope.
Notation "m ;;; k" := (bind m (fun _ => k))
  (at level 100, right associativity) : py_scope.
Open Scope py_scope.

(** Object creation: the new object gets the next free address. *)
Definition alloc (o : obj) : py ref :=
  fun h => (Return (length h), h ++ [o]).

(** Reading the object behind a reference. *)
Definition deref (r : ref) : py obj :=
  fun h => match h !! r with
           | Some o => (Return o, h)
           | None => (Raise BadRef, h)
           end.

(** Assigning to the fields of the object behind a reference. *)
Definition store (r : ref) (o : obj) : py unit :=
  fun h => (Return tt, <[r := o]> h).

(** [for x in l: acc = body(x, acc)]. *)
Fixpoint for_each {A S} (l : list A) (body : A -> S -> py S) (acc : S) : py S :=
  match l with
  | [] => ret acc
  | x :: l' => acc' <- body x acc ;; for_each l' body acc'
  end.

(** ** [list] and [dict] primitives *)

(** [l.remove(x)] on a list of objects without [__eq__]: drops the first
    element that is [x] itself; [None] stands for [ValueError]. *)
Fixpoint list_remove (x : ref) (l : list ref) : option (list ref) :=
  match l with
  | [] => None
  | y :: l' =>
      if Nat.eqb y x then Some l'
      else match list_remove x l' with
           | Some l'' => Some (y :: l'')
           | None => None
           end
  end.

(** [d[key] = value]. *)
Fixpoint dict_setitem (key value : string) (d : dict) : dict :=
  match d with
  | [] => [(key, value)]
  | (k, v) :: d' =>
      if String.eqb k key then (k, value) :: d'
      else (k, v) :: dict_setitem key value d'
  end.

(** ** Constructors *)

Definition Heading_init (text : string) : py ref := alloc (Heading text).

Definition Subheading_init (text : string) (level : Z) : py ref :=
  alloc (Subheading text (Z.max 2 (Z.min 6 level))).

Definition Text_init (content : string) : py ref := alloc (Text content).

Definition CodeBlock_init (code language : string) : py ref :=
  alloc (CodeBlock code language).

Definition Diagram_init (content diagram_type : string) : py ref :=
  alloc (Diagram content diagram_type).

Definition Section_init (title : string) : py ref := alloc (Section title []).

Definition Note_init (title : string) : py ref := alloc (Note title [] []).

(** ** Mutators of the composites *)

Definition add (self component : ref) : py ref :=
  o <- deref self ;;
  match o with
  | Section title components =>
      store self (Section title (components ++ [component])) ;;; ret self
  | Note title components metadata =>
      store self (Note title (components ++ [component]) metadata) ;;; ret self
  | _ => raise AttributeError
  end.

Definition remove (self component : ref) : py ref :=
  o <- deref self ;;
  match o with
  | Section title components =>
      match list_remove component components with
      | Some components' => store self (Section title components') ;;; ret self
      | None => raise ValueError
      end
  | Note title components metadata =>
      match list_remove component components with
      | Some components' =>
          store self (Note title components' metadata) ;;; ret self
      | None => raise ValueError
      end
  | _ => raise AttributeError
  end.

Definition set_metadata (self : ref) (key value : string) : py ref :=
  o <- deref self ;;
  match o with
  | Note title components metadata =>
      store self (Note title components (dict_setitem key value metadata)) ;;;
      ret self
  | _ => raise AttributeError
  end.

(** ** [render] *)

Import PyStr.

Definition Heading_render (text : string) (indent : Z) : string :=
  let prefix := mul "  " indent in
  prefix +:+ "# " +:+ text +:+ nl.

Definition Subheading_render (text : string) (level : Z) (indent : Z) : string :=
  let prefix := mul "  " indent in
  let hashes := mul "#" level in
  prefix +:+ hashes +:+ " " +:+ text +:+ nl.

Definition Text_render (content : string) (indent : Z) : string :=
  let prefix := mul "  " indent in
  let lines := split_nl content in
  join nl (map (fun line => prefix +:+ line) lines) +:+ nl.

Definition CodeBlock_render (code language : string) (indent : Z) : string :=
  let prefix := mul "  " indent in
  let lines := [prefix +:+ "```" +:+ language] in
  let code_lines := split_nl code in
  let lines := lines ++ map (fun line => prefix +:+ line) code_lines in
  let lines := lines ++ [prefix +:+ "```"] in
  join nl lines +:+ nl.

Definition Diagram_render (content diagram_type : string) (indent : Z) : string :=
  let prefix := mul "  " indent in
  let lines := [prefix +:+ "[Diagram: " +:+ diagram_type +:+ "]"] in
  let diagram_lines := split_nl content in
  let lines := lines ++ map (fun line => prefix +:+ line) diagram_lines in
  let lines := lines ++ [prefix +:+ "[End Diagram]"] in
  join nl lines +:+ nl.

Section Dispatch.

(** [component.render(indent)] and [component.get_text_content()] on a
    child, resolved by the class of the child. *)
Variable render : ref -> Z -> py string.
Variable get_text_content : ref -> py string.

Definition Section_render (title : string) (components : list ref)
    (indent : Z) : py string :=
  let result :=
    if truthy title
    then let prefix := mul "  " indent in [prefix +:+ "## " +:+ title +:+ nl]
    else [] in
  result <- for_each components
              (fun component result =>
                 s <- render component indent ;; ret (result ++ [s]))
              result ;;
  ret (join "" result).

Definition Note_render (title : string) (components : list ref)
    (metadata : dict) (indent : Z) : py string :=
  let result := ["# " +:+ title +:+ nl +:+ nl] in
  let result :=
    match metadata with
    | [] => result
    | _ :: _ =>
        let result := result ++ ["---" +:+ nl] in
        let result :=
          fold_left (fun result '(key, value) =>
                       result ++ [key +:+ ": " +:+ value +:+ nl])
                    metadata result in
        result ++ ["---" +:+ nl +:+ nl]
    end in
  result <- for_each components
              (fun component result =>
                 s <- render component indent ;;
                 let result := result ++ [s] in
                 ret (result ++ [nl]))
              result ;;
  ret (join "" result).

(** [parts.extend(c.get_text_content() for c in components)]. *)
Definition extend_text (components : list ref) (parts : list string)
    : py (list string) :=
  for_each components
    (fun component parts =>
       s <- get_text_content component ;; ret (parts ++ [s]))
    parts.

Definition Section_get_text_content (title : string)
    (components : list ref) : py string :=
  let parts := if truthy title then [title] else [] in
  parts <- extend_text components parts ;;
  ret (join " " parts).

Definition Note_get_text_content (title : string)
    (components : list ref) : py string :=
  let parts := [title] in
  parts <- extend_text components parts ;;
  ret (join " " parts).

End Dispatch.

(** Method call on a reference: dispatch on the class of the object.  The
    fuel is the number of nested calls the interpreter still allows. *)
Fixpoint render (fuel : nat) (self : ref) (indent : Z) : py string :=
  match fuel with
  | O => raise RecursionError
  | S fuel =>
      o <- deref self ;;
      match o with
      | Heading text => ret (Heading_render text indent)
      | Subheading text level => ret (Subheading_render text level indent)
      | Text content => ret (Text_render content indent)
      | CodeBlock code language => ret (CodeBlock_render code language indent)
      | Diagram content diagram_type =>
          ret (Diagram_render content diagram_type indent)
      | Section title components =>
          Section_render (render fuel) title components indent
      | Note title components metadata =>
          Note_render (render fuel) title components metadata indent
      end
  end.

Fixpoint get_text_content (fuel : nat) (self : ref) : py string :=
  match fuel with
  | O => raise RecursionError
  | S fuel =>
      o <- deref self ;;
      match o with
      | Heading text => ret text
      | Subheading text _ => ret text
      | Text content => ret content
      | CodeBlock code _ => ret code
      | Diagram content _ => ret content
      | Section title components =>
          Section_get_text_content (get_text_content fuel) title components
      | Note title components _ =>
          Note_get_text_content (get_text_content fuel) title components
      end
  end.

(** ** Scenarios *)

(** [note = Note("T"); note.set_metadata("k", "v"); note.add(Text("hi"));
    note.render()]. *)
Definition scenario_note (fuel : nat) : py string :=
  note <- Note_init "T" ;;
  set_metadata note "k" "v" ;;;
  text <- Text_init "hi" ;;
  add note text ;;;
  render fuel note 0.

(** ** Vocabulary of the properties *)

(** The children list of a composite; leaves have none. *)
Definition components_of (o : obj) : option (list ref) :=
  match o with
  | Section _ components => Some components
  | Note _ components _ => Some components
  | _ => None
  end.

Definition children (o : obj) : list ref := default [] (components_of o).

(** The same object with another children list. *)
Definition with_components (o : obj) (components : list ref) : obj :=
  match o with
  | Section title _ => Section title components
  | Note title _ metadata => Note title components metadata
  | _ => o
  end.

(** The subtree below [r] is at most [fuel] objects deep (so it has no
    cycle) and every reference in it is an object of the store. *)
Fixpoint depth_within (fuel : nat) (h : heap) (r : ref) : bool :=
  match fuel with
  | O => false
  | S fuel =>
      match h !! r with
      | Some o => forallb (depth_within fuel h) (children o)
      | None => false
      end
  end.

(** [r.render(indent)] returns [s], under a recursion limit that is large
    enough, and leaves the store as it was. *)
Definition renders (h : heap) (r : ref) (indent : Z) (s : string) : Prop :=
  exists fuel, render fuel r indent h = (Return s, h).

(** A computation that leaves every object as it found it, whatever its
    outcome. *)
Definition read_only {A} (m : py A) : Prop :=
  forall h o h', m h = (o, h') -> h' = h.

(** [clamp(x, lo, hi)] as the specification words it. *)
Definition clamp (x lo hi : Z) : Z :=
  if x <? lo then lo else if hi <? x then hi else x.

(** Number of occurrences of a character. *)
Fixpoint count_char (c : ascii) (s : string) : nat :=
  match s with
  | EmptyString => O
  | String a s' => ((if Ascii.eqb a c then 1 else 0) + count_char c s')%nat
  end.

(** Every line of [s] starts with the indentation of depth [indent]. *)
Definition indented (indent : Z) (s : string) : Prop :=
  Forall (fun l => startswith (mul "  " indent) l = true) (lines s).

(** Whatever [self.render(indent)] returns is indented line by line. *)
Definition indent_uniform (fuel : nat) (h : heap) (self : ref) (indent : Z)
    : Prop :=
  forall s h', render fuel self indent h = (Return s, h') -> indented indent s.

(** [r'] is a child of the composite [r]. *)
Definition child (h : heap) (r r' : ref) : Prop :=
  exists o, h !! r = Some o /\ r' ∈ children o.

(** The title line of a section, when it has a title. *)
Definition section_title_line (title : string) (indent : Z) : string :=
  if truthy title then mul "  " indent +:+ "## " +:+ title +:+ nl else "".

(** The metadata block of a note, when it has metadata. *)
Definition metadata_lines (metadata : dict) : list string :=
  map (fun '(key, value) => key +:+ ": " +:+ value) metadata.

Definition metadata_block (metadata : dict) : string :=
  match metadata with
  | [] => ""
  | _ :: _ => unlines (["---"] ++ metadata_lines metadata ++ ["---"; ""])
  end.

(** What a note writes before its children: the title line, a blank line
    and the metadata block. *)
Definition note_head (title : string) (metadata : dict) : string :=
  "# " +:+ title +:+ nl +:+ nl +:+ metadata_block metadata.

(** Two calls in a row, with both results. *)
Definition twice {A} (m : py A) : py (A * A) :=
  a1 <- m ;; a2 <- m ;; ret (a1, a2).

(** ** Vocabulary of the further properties *)

(** [d.get(key)]: the value stored under [key], if any. *)
Fixpoint dict_get (key : string) (d : dict) : option string :=
  match d with
  | [] => None
  | (k, v) :: d' => if String.eqb k key then Some v else dict_get key d'
  end.

(** [s.endswith('\n')]. *)
Fixpoint endswith_nl (s : string) : bool :=
  match s with
  | EmptyString => false
  | String c EmptyString => is_LF c
  | String _ s' => endswith_nl s'
  end.

Definition is_Section (o : obj) : bool :=
  match o with
  | Section _ _ => true
  | _ => false
  end.

(** [r] is among its own descendants. *)
Definition on_cycle (h : heap) (r : ref) : Prop := tc (child h) r r.


(** [r.get_text_content()] returns [s], under a recursion limit that is
    large enough, and leaves the store as it was. *)
Definition digests (h : heap) (r : ref) (s : string) : Prop :=
  exists fuel, get_text_content fuel r h = (Return s, h).

(** The strings a composite joins with spaces before those of its
    children: its title, which a section leaves out when empty. *)
Definition own_parts (o : obj) : list string :=
  match o with
  | Section title _ => if truthy title then [title] else []
  | Note title _ _ => [title]
  | _ => []
  end.

(** One of the three calls that change a container. *)
Definition mutation (self : ref) (m : py ref) : Prop :=
  (exists component, m = add self component) \/
  (exists component, m = remove self component) \/
  (exists key value, m = set_metadata self key value).

(** The fields that the code writes on one indented line (heading and
    subheading text, code language, diagram type, section title) hold no
    line feed. *)
Definition one_line_fields (o : obj) : bool :=
  match o with
  | Heading text => one_line text
  | Subheading text _ => one_line text
  | Text _ => true
  | CodeBlock _ language => one_line language
  | Diagram _ diagram_type => one_line diagram_type
  | Section title _ => one_line title
  | Note _ _ _ => true
  end.

(** A line of a layout: its text, and whether it is written after the
    indentation of the call ([true]) or at the left margin ([false]). *)
Definition after_indent (ls : list string) : list (bool * string) :=
  map (pair true) ls.

Definition at_margin (ls : list string) : list (bool * string) :=
  map (pair false) ls.

(** The line as it stands in the output, for the indentation [prefix]. *)
Definition place (prefix : string) (line : bool * string) : string :=
  if line.1 then prefix +:+ line.2 else line.2.

(** The layout of the specification (4.2 to 4.4), line by line and without
    any depth.  Every line of a leaf and the title line of a section are
    written after the indentation.  A document writes its own lines at
    the left margin: the title line, a blank line, the metadata between
    two [---] lines with a blank line when there is metadata, and a blank
    line after each child; the lines of a child are laid out as the child
    lays them out. *)
Fixpoint spec_layout (fuel : nat) (h : heap) (self : ref)
    : option (list (bool * string)) :=
  match fuel with
  | O => None
  | S fuel =>
      match h !! self with
      | None => None
      | Some (Heading text) => Some (after_indent ["# " +:+ text])
      | Some (Subheading text level) =>
          Some (after_indent [mul "#" level +:+ " " +:+ text])
      | Some (Text content) => Some (after_indent (split_nl content))
      | Some (CodeBlock code language) =>
          Some (after_indent
                  (("```" +:+ language) :: split_nl code ++ ["```"]))
      | Some (Diagram content diagram_type) =>
          Some (after_indent
                  (("[Diagram: " +:+ diagram_type +:+ "]")
                     :: split_nl content ++ ["[End Diagram]"]))
      | Some (Section title components) =>
          match mapM (spec_layout fuel h) components with
          | Some rest =>
              Some (after_indent (if truthy title then ["## " +:+ title] else [])
                    ++ concat rest)
          | None => None
          end
      | Some (Note title components metadata) =>
          match mapM (spec_layout fuel h) components with
          | Some rest =>
              Some (at_margin
                      (split_nl ("# " +:+ title) ++ [""] ++
                       match metadata with
                       | [] => []
                       | _ :: _ =>
                           ["---"] ++
                           concat (map (fun '(key, value) =>
                                          split_nl (key +:+ ": " +:+ value))
                                       metadata) ++
                           ["---"; ""]
                       end)
                    ++ concat (map (fun ls => ls ++ at_margin [""]) rest))
          | None => None
          end
      end
  end.

(** The least count Python's [str * int] accepts, [-2^63]; below it the
    multiplication raises [OverflowError]. *)
Definition PY_SSIZE_T_MIN : Z := -9223372036854775808.

(** ** Facts about strings *)

Module PyStrFacts.

Lemma str_app_cons a s t : String a s +:+ t = String a (s +:+ t).
Proof. reflexivity. Qed.

Lemma str_app_nil_l s : "" +:+ s = s.
Proof. reflexivity. Qed.

Lemma str_app_nil_r s : s +:+ "" = s.
Proof. induction s as [|a s IH]; [done|]. by rewrite str_app_cons, IH. Qed.

Lemma str_app_assoc s t u : (s +:+ t) +:+ u = s +:+ (t +:+ u).
Proof. induction s as [|a s IH]; [done|]. by rewrite !str_app_cons, IH. Qed.

Lemma string_length_app s t :
  String.length (s +:+ t) = (String.length s + String.length t)%nat.
Proof. induction s as [|a s IH]; [done|]. rewrite str_app_cons. simpl. by rewrite IH. Qed.

(** *** Repetition *)

Lemma repeat_nat_add s (n m : nat) :
  repeat_nat s (n + m) = repeat_nat s n +:+ repeat_nat s m.
Proof.
  induction n as [|n IH]; [done|]. simpl. by rewrite IH, str_app_assoc.
Qed.

Lemma length_repeat_nat s (n : nat) :
  String.length (repeat_nat s n) = (n * String.length s)%nat.
Proof.
  induction n as [|n IH]; [done|]. simpl. by rewrite string_length_app, IH.
Qed.

Lemma mul_two_spaces (indent : Z) :
  mul "  " indent = repeat_nat " " (Z.to_nat (2 * indent)).
Proof.
  unfold mul. destruct (Z.le_gt_cases 0 indent) as [Hle|Hlt].
  - replace (Z.to_nat (2 * indent)) with (Z.to_nat indent + Z.to_nat indent)%nat by lia.
    induction (Z.to_nat indent) as [|n IH]; [done|].
    replace (S n + S n)%nat with (S (S (n + n))) by lia. simpl. by rewrite IH.
  - by replace (Z.to_nat indent) with 0%nat by lia;
      replace (Z.to_nat (2 * indent)) with 0%nat by lia.
Qed.

(** *** Line feeds *)

Lemma one_line_app s t : one_line (s +:+ t) = one_line s && one_line t.
Proof.
  induction s as [|a s IH]; [done|]. rewrite str_app_cons. simpl.
  by rewrite IH, andb_assoc.
Qed.

Lemma one_line_repeat_nat s (n : nat) :
  one_line s = true -> one_line (repeat_nat s n) = true.
Proof.
  intros Hs. induction n as [|n IH]; [done|]. simpl.
  by rewrite one_line_app, Hs, IH.
Qed.

Lemma one_line_mul s n : one_line s = true -> one_line (mul s n) = true.
Proof. apply one_line_repeat_nat. Qed.

Lemma split_nl_nonempty s : split_nl s <> [].
Proof.
  destruct s as [|c s]; [done|]. simpl.
  destruct (is_LF c); [done|]. by destruct (split_nl s).
Qed.

Lemma split_nl_one_line s : Forall (fun l => one_line l = true) (split_nl s).
Proof.
  induction s as [|c s IH]; simpl.
  - by repeat constructor.
  - destruct (is_LF c) eqn:Hc; [by constructor|].
    destruct (split_nl s) as [|l ls]; [by repeat constructor; simpl; rewrite Hc|].
    inversion_clear IH as [|? ? Hl Hls]. constructor; [|done].
    simpl. by rewrite Hc, Hl.
Qed.

(** A line closed by a line feed is the first piece of the split. *)
Lemma split_nl_line l rest :
  one_line l = true -> split_nl (l +:+ nl +:+ rest) = l :: split_nl rest.
Proof.
  induction l as [|c l IH]; intros Hl.
  - reflexivity.
  - simpl in Hl. apply andb_true_iff in Hl as [Hc Hl].
    rewrite str_app_cons. simpl. apply negb_true_iff in Hc. rewrite Hc.
    by rewrite (IH Hl).
Qed.

(** *** [join] and [unlines] *)

Lemma join_empty_cons s ls : join "" (s :: ls) = s +:+ join "" ls.
Proof.
  unfold join. destruct ls as [|t ls]; simpl; [by rewrite str_app_nil_r|done].
Qed.

Lemma join_empty_app xs ys : join "" (xs ++ ys) = join "" xs +:+ join "" ys.
Proof.
  induction xs as [|x xs IH]; [done|].
  change ((x :: xs) ++ ys) with (x :: (xs ++ ys)).
  by rewrite !join_empty_cons, IH, str_app_assoc.
Qed.

Lemma unlines_nil : unlines [] = "".
Proof. reflexivity. Qed.

Lemma unlines_cons l ls : unlines (l :: ls) = l +:+ nl +:+ unlines ls.
Proof.
  unfold unlines. change (map ?f (l :: ls)) with (f l :: map f ls).
  fold (join "" ((l +:+ nl) :: map (fun l => l +:+ nl) ls)).
  by rewrite join_empty_cons, str_app_assoc.
Qed.

Lemma unlines_app xs ys : unlines (xs ++ ys) = unlines xs +:+ unlines ys.
Proof.
  induction xs as [|x xs IH]; [done|].
  change ((x :: xs) ++ ys) with (x :: (xs ++ ys)).
  by rewrite !unlines_cons, IH, !str_app_assoc.
Qed.

(** [nl.join(ls) + nl] closes every element of a non-empty [ls]. *)
Lemma join_nl_unlines ls : ls <> [] -> join nl ls +:+ nl = unlines ls.
Proof.
  induction ls as [|x ls IH]; [done|]. intros _.
  destruct ls as [|y ls].
  - simpl. by rewrite unlines_cons, unlines_nil, str_app_nil_r.
  - rewrite unlines_cons, <- IH by done. unfold join. simpl.
    by rewrite !str_app_assoc.
Qed.

Lemma split_nl_unlines ls :
  Forall (fun l => one_line l = true) ls -> split_nl (unlines ls) = ls ++ [""].
Proof.
  induction 1 as [|l ls Hl _ IH]; [done|].
  by rewrite unlines_cons, split_nl_line, IH.
Qed.

(** What was written line by line is read back line by line. *)
Lemma lines_unlines ls :
  Forall (fun l => one_line l = true) ls -> lines (unlines ls) = ls.
Proof.
  intros Hls. unfold lines. rewrite (split_nl_unlines _ Hls).
  rewrite last_snoc. apply removelast_last.
Qed.

(** *** Prefixes *)

Lemma startswith_app p s : startswith p (p +:+ s) = true.
Proof.
  induction p as [|a p IH]; [done|]. rewrite str_app_cons. simpl.
  by rewrite Ascii.eqb_refl, IH.
Qed.

End PyStrFacts.

(** ** Facts about the method monad *)

Section MonadFacts.

Context {A B : Type}.

Lemma bind_return (m : py A) (k : A -> py B) h a h' :
  m h = (Return a, h') -> bind m k h = k a h'.
Proof. unfold bind. by intros ->. Qed.

Lemma bind_raise (m : py A) (k : A -> py B) h e h' :
  m h = (Raise e, h') -> bind m k h = (Raise e, h').
Proof. unfold bind. by intros ->. Qed.

Lemma bind_inv (m : py A) (k : A -> py B) h b h' :
  bind m k h = (Return b, h') ->
  exists a h1, m h = (Return a, h1) /\ k a h1 = (Return b, h').
Proof.
  unfold bind. destruct (m h) as [[a|e] h1]; [eauto|done].
Qed.

Lemma read_only_ret (a : A) : read_only (ret a).
Proof. intros h o h'. unfold ret. congruence. Qed.

Lemma read_only_raise e : read_only (@raise A e).
Proof. intros h o h'. unfold raise. congruence. Qed.

Lemma read_only_bind (m : py A) (k : A -> py B) :
  read_only m -> (forall a, read_only (k a)) -> read_only (bind m k).
Proof.
  intros Hm Hk h o h'. unfold bind.
  destruct (m h) as [[a|e] h1] eqn:E; apply Hm in E as ->.
  - apply Hk.
  - congruence.
Qed.

End MonadFacts.

Lemma read_only_deref r : read_only (deref r).
Proof. intros h o h'. unfold deref. destruct (h !! r); congruence. Qed.

Lemma deref_lookup h r o : h !! r = Some o -> deref r h = (Return o, h).
Proof. unfold deref. by intros ->. Qed.

Section ForEach.

Context {A B S : Type}.
Implicit Types (l : list A) (acc : S).

Lemma read_only_for_each l (body : A -> S -> py S) acc :
  (forall x acc, read_only (body x acc)) -> read_only (for_each l body acc).
Proof.
  intros Hbody. revert acc. induction l as [|x l IH]; intros acc; simpl.
  - apply read_only_ret.
  - apply read_only_bind; [apply Hbody|]. intros acc'. apply IH.
Qed.

(** A loop whose body succeeds wherever that of another does computes
    the same. *)
Lemma for_each_mono l (body1 body2 : A -> S -> py S) acc h res h' :
  (forall x acc h res h',
      body1 x acc h = (Return res, h') -> body2 x acc h = (Return res, h')) ->
  for_each l body1 acc h = (Return res, h') ->
  for_each l body2 acc h = (Return res, h').
Proof.
  intros Hbody. revert acc h. induction l as [|x l IH]; intros acc h; simpl; [done|].
  intros (acc' & h1 & E1 & E2)%bind_inv.
  rewrite (bind_return _ _ _ _ _ (Hbody _ _ _ _ _ E1)). by apply IH.
Qed.

Variable f : A -> py B.
Variable step : S -> B -> S.

(** A loop that calls [f] on each element and folds the results. *)
Lemma for_each_collect l acc h outs :
  Forall2 (fun x b => f x h = (Return b, h)) l outs ->
  for_each l (fun x acc => b <- f x ;; ret (step acc b)) acc h
  = (Return (fold_left step outs acc), h).
Proof.
  intros Hall. revert acc. induction Hall as [|x b l outs Hx _ IH]; intros acc; simpl.
  - reflexivity.
  - rewrite (bind_return _ _ _ _ _ (bind_return _ _ _ _ _ Hx)). apply IH.
Qed.

Lemma for_each_collect_inv l acc h res h' :
  (forall x, read_only (f x)) ->
  for_each l (fun x acc => b <- f x ;; ret (step acc b)) acc h = (Return res, h') ->
  h' = h /\
  exists outs, Forall2 (fun x b => f x h = (Return b, h)) l outs /\
               res = fold_left step outs acc.
Proof.
  intros Hf. revert acc. induction l as [|x l IH]; intros acc; simpl.
  - unfold ret. intros [= <- <-]. split; [done|]. exists []. by split; [constructor|].
  - intros (acc' & h1 & (b & h2 & Eb & Er)%bind_inv & E2)%bind_inv.
    unfold ret in Er. injection Er as <- <-.
    pose proof (Hf _ _ _ _ Eb) as ->.
    destruct (IH _ E2) as (-> & outs & Hall & ->).
    split; [done|]. exists (b :: outs). by split; [constructor|].
Qed.

End ForEach.

Import PyStrFacts.

Lemma join_fold_snoc outs acc :
  join "" (fold_left (fun acc s => acc ++ [s]) outs acc)
  = join "" acc +:+ join "" outs.
Proof.
  revert acc. induction outs as [|s outs IH]; intros acc; simpl.
  - by rewrite str_app_nil_r.
  - by rewrite IH, join_empty_app, str_app_assoc, <- join_empty_cons.
Qed.

Lemma join_fold_snoc_nl outs acc :
  join "" (fold_left (fun acc s => (acc ++ [s]) ++ [nl]) outs acc)
  = join "" acc +:+ unlines outs.
Proof.
  revert acc. induction outs as [|s outs IH]; intros acc; simpl.
  - by rewrite unlines_nil, str_app_nil_r.
  - rewrite IH, !join_empty_app, unlines_cons, !str_app_assoc.
    by rewrite !join_empty_cons, !str_app_nil_r.
Qed.

Lemma join_fold_metadata (metadata : dict) acc :
  join "" (fold_left (fun result '(key, value) =>
                        result ++ [key +:+ ": " +:+ value +:+ nl])
                     metadata acc)
  = join "" acc +:+ unlines (metadata_lines metadata).
Proof.
  revert acc. induction metadata as [|[k v] md IH]; intros acc; simpl.
  - by rewrite unlines_nil, str_app_nil_r.
  - rewrite IH, join_empty_app, unlines_cons, !str_app_assoc.
    by rewrite join_empty_cons, !str_app_assoc.
Qed.

(** ** Facts about [render] and [get_text_content] *)

Lemma render_S fuel self indent :
  render (S fuel) self indent =
  (o <- deref self ;;
   match o with
   | Heading text => ret (Heading_render text indent)
   | Subheading text level => ret (Subheading_render text level indent)
   | Text content => ret (Text_render content indent)
   | CodeBlock code language => ret (CodeBlock_render code language indent)
   | Diagram content diagram_type =>
       ret (Diagram_render content diagram_type indent)
   | Section title components =>
       Section_render (render fuel) title components indent
   | Note title components metadata =>
       Note_render (render fuel) title components metadata indent
   end).
Proof. reflexivity. Qed.

Lemma get_text_content_S fuel self :
  get_text_content (S fuel) self =
  (o <- deref self ;;
   match o with
   | Heading text => ret text
   | Subheading text _ => ret text
   | Text content => ret content
   | CodeBlock code _ => ret code
   | Diagram content _ => ret content
   | Section title components =>
       Section_get_text_content (get_text_content fuel) title components
   | Note title components _ =>
       Note_get_text_content (get_text_content fuel) title components
   end).
Proof. reflexivity. Qed.

Lemma render_read_only fuel self indent : read_only (render fuel self indent).
Proof.
  revert self indent. induction fuel as [|fuel IH]; intros self indent.
  - apply read_only_raise.
  - rewrite render_S. apply read_only_bind; [apply read_only_deref|].
    intros [ | | | | | title cs | title cs md]; try apply read_only_ret.
    + apply read_only_bind; [|intros; apply read_only_ret].
      apply read_only_for_each. intros c acc.
      apply read_only_bind; [apply IH|intros; apply read_only_ret].
    + apply read_only_bind; [|intros; apply read_only_ret].
      apply read_only_for_each. intros c acc.
      apply read_only_bind; [apply IH|intros; apply read_only_ret].
Qed.

Lemma get_text_content_read_only fuel self :
  read_only (get_text_content fuel self).
Proof.
  revert self. induction fuel as [|fuel IH]; intros self.
  - apply read_only_raise.
  - rewrite get_text_content_S. apply read_only_bind; [apply read_only_deref|].
    intros [ | | | | | title cs | title cs md]; try apply read_only_ret.
    + apply read_only_bind; [|intros; apply read_only_ret].
      apply read_only_for_each. intros c acc.
      apply read_only_bind; [apply IH|intros; apply read_only_ret].
    + apply read_only_bind; [|intros; apply read_only_ret].
      apply read_only_for_each. intros c acc.
      apply read_only_bind; [apply IH|intros; apply read_only_ret].
Qed.

(** A larger recursion limit does not change what a call returns. *)
Lemma render_fuel_S fuel self indent h s h' :
  render fuel self indent h = (Return s, h') ->
  render (S fuel) self indent h = (Return s, h').
Proof.
  revert self indent h s h'.
  induction fuel as [|fuel IH]; intros self indent h s h'; [done|].
  rewrite (render_S (S fuel)), (render_S fuel).
  intros (o & h1 & Ed & E)%bind_inv. rewrite (bind_return _ _ _ _ _ Ed).
  destruct o as [ | | | | | title cs | title cs md]; try done.
  - apply bind_inv in E as (res & h2 & E & Er).
    unfold Section_render. erewrite bind_return; [exact Er|].
    revert E. apply for_each_mono. clear -IH. intros c acc h res h'.
    intros (s & h1 & E & Er)%bind_inv.
    by rewrite (bind_return _ _ _ _ _ (IH _ _ _ _ _ E)).
  - apply bind_inv in E as (res & h2 & E & Er).
    unfold Note_render. erewrite bind_return; [exact Er|].
    revert E. apply for_each_mono. clear -IH. intros c acc h res h'.
    intros (s & h1 & E & Er)%bind_inv.
    by rewrite (bind_return _ _ _ _ _ (IH _ _ _ _ _ E)).
Qed.

Lemma render_fuel_mono n m self indent h s h' :
  (n <= m)%nat ->
  render n self indent h = (Return s, h') ->
  render m self indent h = (Return s, h').
Proof.
  induction 1 as [|m _ IH]; [done|]. intros E. by apply render_fuel_S, IH.
Qed.

(** Children that render one by one render under one common limit. *)
Lemma renders_common_fuel h indent cs outs :
  Forall2 (fun c s => renders h c indent s) cs outs ->
  exists fuel,
    Forall2 (fun c s => render fuel c indent h = (Return s, h)) cs outs.
Proof.
  induction 1 as [|c s cs outs [n Hc] _ [m IH]].
  - exists 0%nat. constructor.
  - exists (n `max` m)%nat. constructor.
    + eapply render_fuel_mono; [|exact Hc]. lia.
    + eapply Forall2_impl; [exact IH|]. simpl. intros c' s' E.
      eapply render_fuel_mono; [|exact E]. lia.
Qed.

(** *** What the composites return, from what their children return *)

Lemma render_Section fuel h self title components indent outs :
  h !! self = Some (Section title components) ->
  Forall2 (fun c s => render fuel c indent h = (Return s, h)) components outs ->
  render (S fuel) self indent h
  = (Return (section_title_line title indent +:+ join "" outs), h).
Proof.
  intros Hself Hcs. rewrite render_S, (bind_return _ _ _ _ _ (deref_lookup _ _ _ Hself)).
  unfold Section_render.
  erewrite bind_return;
    [|apply (for_each_collect (fun c => render fuel c indent)
               (fun acc s => acc ++ [s])), Hcs].
  unfold ret. rewrite join_fold_snoc. unfold section_title_line.
  destruct (truthy title); [|done]. by rewrite join_empty_cons, str_app_nil_r.
Qed.

Lemma render_Section_inv fuel h self title components indent s h' :
  h !! self = Some (Section title components) ->
  render (S fuel) self indent h = (Return s, h') ->
  h' = h /\
  exists outs,
    Forall2 (fun c s => render fuel c indent h = (Return s, h)) components outs /\
    s = section_title_line title indent +:+ join "" outs.
Proof.
  intros Hself. rewrite render_S, (bind_return _ _ _ _ _ (deref_lookup _ _ _ Hself)).
  unfold Section_render. intros (res & h1 & E & Er)%bind_inv.
  apply (for_each_collect_inv (fun c => render fuel c indent)
           (fun acc s => acc ++ [s])) in E as (-> & outs & Hcs & ->);
    [|intros; apply render_read_only].
  unfold ret in Er. injection Er as <- <-. split; [done|].
  exists outs. split; [done|]. rewrite join_fold_snoc. unfold section_title_line.
  destruct (truthy title); [|done]. by rewrite join_empty_cons, str_app_nil_r.
Qed.

Lemma note_head_join title metadata :
  join ""
    (match metadata with
     | [] => ["# " +:+ title +:+ nl +:+ nl]
     | _ :: _ =>
         fold_left (fun result '(key, value) =>
                      result ++ [key +:+ ": " +:+ value +:+ nl])
                   metadata (["# " +:+ title +:+ nl +:+ nl] ++ ["---" +:+ nl])
         ++ ["---" +:+ nl +:+ nl]
     end)
  = note_head title metadata.
Proof.
  unfold note_head, metadata_block. destruct metadata as [|kv md].
  - by rewrite join_empty_cons, !str_app_nil_r.
  - rewrite join_empty_app, join_fold_metadata, join_empty_app.
    rewrite !unlines_app, !join_empty_cons, !unlines_cons, unlines_nil.
    by rewrite !str_app_assoc, !str_app_nil_r.
Qed.

Lemma render_Note fuel h self title components metadata indent outs :
  h !! self = Some (Note title components metadata) ->
  Forall2 (fun c s => render fuel c indent h = (Return s, h)) components outs ->
  render (S fuel) self indent h
  = (Return (note_head title metadata +:+ unlines outs), h).
Proof.
  intros Hself Hcs. rewrite render_S, (bind_return _ _ _ _ _ (deref_lookup _ _ _ Hself)).
  unfold Note_render.
  erewrite bind_return;
    [|apply (for_each_collect (fun c => render fuel c indent)
               (fun acc s => (acc ++ [s]) ++ [nl])), Hcs].
  unfold ret. by rewrite join_fold_snoc_nl, note_head_join.
Qed.

Lemma render_Note_inv fuel h self title components metadata indent s h' :
  h !! self = Some (Note title components metadata) ->
  render (S fuel) self indent h = (Return s, h') ->
  h' = h /\
  exists outs,
    Forall2 (fun c s => render fuel c indent h = (Return s, h)) components outs /\
    s = note_head title metadata +:+ unlines outs.
Proof.
  intros Hself. rewrite render_S, (bind_return _ _ _ _ _ (deref_lookup _ _ _ Hself)).
  unfold Note_render. intros (res & h1 & E & Er)%bind_inv.
  apply (for_each_collect_inv (fun c => render fuel c indent)
           (fun acc s => (acc ++ [s]) ++ [nl])) in E as (-> & outs & Hcs & ->);
    [|intros; apply render_read_only].
  unfold ret in Er. injection Er as <- <-. split; [done|].
  exists outs. split; [done|]. by rewrite join_fold_snoc_nl, note_head_join.
Qed.

(** ** Facts about the store and the mutators *)

Lemma alloc_run o h : alloc o h = (Return (length h), h ++ [o]).
Proof. reflexivity. Qed.

Lemma lookup_alloc (h : heap) o : (h ++ [o]) !! length h = Some o.
Proof. by apply list_lookup_middle. Qed.

Lemma insert_at_length (h h2 : heap) o o' :
  <[length h := o']> (h ++ o :: h2) = h ++ o' :: h2.
Proof.
  rewrite <- (Nat.add_0_r (length h)) at 1. by rewrite insert_app_r.
Qed.

Lemma insert_alloc (h : heap) o o' : <[length h := o']> (h ++ [o]) = h ++ [o'].
Proof. apply insert_at_length. Qed.

Lemma set_metadata_Note h self title components metadata key value :
  h !! self = Some (Note title components metadata) ->
  set_metadata self key value h
  = (Return self,
     <[self := Note title components (dict_setitem key value metadata)]> h).
Proof.
  intros Hself. unfold set_metadata.
  by rewrite (bind_return _ _ _ _ _ (deref_lookup _ _ _ Hself)).
Qed.

Lemma add_composite h self o components component :
  h !! self = Some o ->
  components_of o = Some components ->
  add self component h
  = (Return self, <[self := with_components o (components ++ [component])]> h).
Proof.
  intros Hself Ho. unfold add.
  rewrite (bind_return _ _ _ _ _ (deref_lookup _ _ _ Hself)).
  by destruct o; simplify_eq/=.
Qed.

Tactic Notation "run_bind" tactic3(tac) := erewrite bind_return by tac.

(** ** The model on the scenarios of the specification and of the tests *)

Example heading_intro :
  (self <- Heading_init "Intro" ;; render 1 self 0) []
  = (Return ("# Intro" +:+ nl), [Heading "Intro"]).
Proof. reflexivity. Qed.

Example subheading_deep :
  (self <- Subheading_init "Deep" 10 ;; render 1 self 0) []
  = (Return ("###### Deep" +:+ nl), [Subheading "Deep" 6]).
Proof. reflexivity. Qed.

Example code_block_python :
  (self <- CodeBlock_init "x=1" "python" ;; render 1 self 0) []
  = (Return ("```python" +:+ nl +:+ "x=1" +:+ nl +:+ "```" +:+ nl),
     [CodeBlock "x=1" "python"]).
Proof. reflexivity. Qed.

Example diagram_flowchart :
  (self <- Diagram_init "A --> B" "flowchart" ;; render 1 self 0) []
  = (Return ("[Diagram: flowchart]" +:+ nl +:+ "A --> B" +:+ nl +:+
             "[End Diagram]" +:+ nl),
     [Diagram "A --> B" "flowchart"]).
Proof. reflexivity. Qed.

Example empty_note :
  (self <- Note_init "T" ;; render 1 self 0) []
  = (Return ("# T" +:+ nl +:+ nl), [Note "T" [] []]).
Proof. reflexivity. Qed.

(** A section inside a note, rendered at depth 1: its two texts are
    indented as the section is, not deeper. *)
Example nested_section_same_depth :
  (note <- Note_init "N" ;;
   section <- Section_init "S" ;;
   a <- Text_init "a" ;;
   b <- Text_init "b" ;;
   add section a ;;; add section b ;;; add note section ;;;
   render 3 note 1) []
  = (Return ("# N" +:+ nl +:+ nl +:+
             "  ## S" +:+ nl +:+ "  a" +:+ nl +:+ "  b" +:+ nl +:+ nl),
     [Note "N" [1%nat] []; Section "S" [2; 3]%nat; Text "a"; Text "b"]).
Proof. reflexivity. Qed.

Example note_text_content :
  (note <- Note_init "Test" ;;
   a <- Text_init "Hello" ;;
   b <- CodeBlock_init "code" "python" ;;
   c <- Text_init "World" ;;
   add note a ;;; add note b ;;; add note c ;;;
   get_text_content 2 note) []
  = (Return "Test Hello code World",
     [Note "Test" [1; 2; 3]%nat []; Text "Hello"; CodeBlock "code" "python";
      Text "World"]).
Proof. reflexivity. Qed.

(** Two texts with the same content are two objects: removing the one
    that was never added raises, although an equal one is a child. *)
Example remove_equal_but_distinct :
  (section <- Section_init "" ;;
   a <- Text_init "a" ;;
   a' <- Text_init "a" ;;
   add section a ;;; remove section a') []
  = (Raise ValueError, [Section "" [1%nat]; Text "a"; Text "a"]).
Proof. reflexivity. Qed.

(** A call nested deeper than the recursion limit raises. *)
Example recursion_limit :
  render 1 0 0 [Section "S" [1%nat]; Text "a"]
  = (Raise RecursionError, [Section "S" [1%nat]; Text "a"]).
Proof. reflexivity. Qed.

(** ** The claims *)

(** C1.  A [Note] built with title [T], given the metadata [k: v] and the
    single child [Text("hi")], renders at depth 0 to the title line and a
    blank line, the metadata between two [---] lines and a blank line,
    then the text of the child and one more line feed.  This holds from
    any store, under any recursion limit of at least two nested calls. *)
Theorem note_with_metadata_and_text_renders (h : heap) (fuel : nat) :
  scenario_note (S (S fuel)) h
  = (Return ("# T" +:+ nl +:+ nl +:+
             "---" +:+ nl +:+ "k: v" +:+ nl +:+ "---" +:+ nl +:+ nl +:+
             "hi" +:+ nl +:+ nl),
     h ++ [Note "T" [S (length h)] [("k", "v")]; Text "hi"]).
Proof.
  unfold scenario_note, Note_init, Text_init.
  run_bind (apply alloc_run).
  run_bind (apply set_metadata_Note, lookup_alloc).
  rewrite insert_alloc. simpl dict_setitem.
  run_bind (apply alloc_run).
  rewrite length_app, Nat.add_1_r. simpl length.
  assert (Hnote : (h ++ [Note "T" [] [("k", "v")]] ++ [Text "hi"]) !! length h
                  = Some (Note "T" [] [("k", "v")])) by by apply list_lookup_middle.
  rewrite <- (assoc_L (++)).
  run_bind (eapply add_composite; [exact Hnote|reflexivity]).
  cbn [with_components app]. rewrite insert_at_length.
  rewrite (render_Note _ _ _ "T" [S (length h)] [("k", "v")] 0 ["hi" +:+ nl]).
  - reflexivity.
  - by apply list_lookup_middle.
  - constructor; [|constructor]. rewrite render_S.
    assert (Htext : (h ++ [Note "T" [S (length h)] [("k", "v")]; Text "hi"])
                      !! S (length h) = Some (Text "hi")).
    { rewrite lookup_app_r by lia.
      by replace (S (length h) - length h)%nat with 1%nat by lia. }
    by rewrite (bind_return _ _ _ _ _ (deref_lookup _ _ _ Htext)).
Qed.

(** C7.  A [Section] with an empty title and no children renders to the
    empty string, at every depth. *)
Theorem empty_section_renders_empty (h : heap) (self : ref) (fuel : nat)
    (indent : Z) :
  h !! self = Some (Section "" []) ->
  render (S fuel) self indent h = (Return "", h).
Proof.
  intros Hself.
  by rewrite (render_Section fuel h self "" [] indent [] Hself) by constructor.
Qed.

Lemma empty_section_renders_empty_witness :
  [Text "a"; Section "" []] !! 1%nat = Some (Section "" []) /\
  render 1 1 3 [Text "a"; Section "" []]
  = (Return "", [Text "a"; Section "" []]).
Proof.
  split; [reflexivity|].
  apply (empty_section_renders_empty [Text "a"; Section "" []] 1 0 3).
  reflexivity.
Defined.

Lemma count_char_app c s t :
  count_char c (s +:+ t) = (count_char c s + count_char c t)%nat.
Proof.
  induction s as [|a s IH]; [done|]. rewrite str_app_cons. simpl. rewrite IH. lia.
Qed.

Lemma count_char_repeat_nat c s (n : nat) :
  count_char c (repeat_nat s n) = (n * count_char c s)%nat.
Proof.
  induction n as [|n IH]; [done|]. simpl. by rewrite count_char_app, IH.
Qed.

Lemma clamp_max_min x : Z.max 2 (Z.min 6 x) = clamp x 2 6.
Proof.
  unfold clamp. destruct (Z.ltb_spec x 2); [lia|].
  destruct (Z.ltb_spec 6 x); lia.
Qed.

(** C4.  Whatever integer [level] a [Subheading] is constructed with, the
    constructor raises nothing and the level it stores is
    [clamp(level, 2, 6)], a value between 2 and 6; [render] then writes
    the indentation, that many [#], a space, the text and a line feed, so
    that the output holds exactly that many [#] more than the text. *)
Theorem subheading_level_clamped (text : string) (level : Z) (h : heap)
    (fuel : nat) (indent : Z) :
  let stored := clamp level 2 6 in
  let out := mul "  " indent +:+ repeat_nat "#" (Z.to_nat stored) +:+ " "
             +:+ text +:+ nl in
  Subheading_init text level h
  = (Return (length h), h ++ [Subheading text stored]) /\
  2 <= stored <= 6 /\
  (self <- Subheading_init text level ;; render (S fuel) self indent) h
  = (Return out, h ++ [Subheading text stored]) /\
  String.length (repeat_nat "#" (Z.to_nat stored)) = Z.to_nat stored /\
  count_char "#" out = (Z.to_nat stored + count_char "#" text)%nat.
Proof.
  intros stored out.
  assert (Hinit : Subheading_init text level h
                  = (Return (length h), h ++ [Subheading text stored])).
  { unfold Subheading_init. by rewrite clamp_max_min. }
  split; [exact Hinit|]. split.
  { subst stored. unfold clamp. destruct (Z.ltb_spec level 2); [lia|].
    destruct (Z.ltb_spec 6 level); lia. }
  split.
  { rewrite (bind_return _ _ _ _ _ Hinit), render_S.
    by rewrite (bind_return _ _ _ _ _ (deref_lookup _ _ _ (lookup_alloc _ _))). }
  split.
  { rewrite length_repeat_nat. simpl. lia. }
  subst out. rewrite !count_char_app, mul_two_spaces, !count_char_repeat_nat.
  simpl. lia.
Qed.

(** C5.  For each of the five leaf classes, [get_text_content()] on a
    freshly constructed object returns the very content string given to
    the constructor, with nothing added, whatever the other constructor
    arguments are. *)
Theorem leaf_get_text_content_literal (h : heap) (fuel : nat)
    (content other : string) (level : Z) :
  (self <- Heading_init content ;; get_text_content (S fuel) self) h
  = (Return content, h ++ [Heading content]) /\
  (self <- Subheading_init content level ;; get_text_content (S fuel) self) h
  = (Return content, h ++ [Subheading content (Z.max 2 (Z.min 6 level))]) /\
  (self <- Text_init content ;; get_text_content (S fuel) self) h
  = (Return content, h ++ [Text content]) /\
  (self <- CodeBlock_init content other ;; get_text_content (S fuel) self) h
  = (Return content, h ++ [CodeBlock content other]) /\
  (self <- Diagram_init content other ;; get_text_content (S fuel) self) h
  = (Return content, h ++ [Diagram content other]).
Proof.
  repeat split;
    (erewrite bind_return by apply alloc_run);
    rewrite get_text_content_S;
    by rewrite (bind_return _ _ _ _ _ (deref_lookup _ _ _ (lookup_alloc _ _))).
Qed.

(** *** [remove] *)

Lemma list_remove_absent x l : x ∉ l -> list_remove x l = None.
Proof.
  induction l as [|y l IH]; [done|]. intros [Hxy Hl]%not_elem_of_cons. simpl.
  destruct (Nat.eqb_spec y x) as [->|_]; [done|]. by rewrite IH.
Qed.

Lemma list_remove_first x before after :
  x ∉ before -> list_remove x (before ++ x :: after) = Some (before ++ after).
Proof.
  induction before as [|y l IH]; simpl.
  - by rewrite Nat.eqb_refl.
  - intros [Hxy Hl]%not_elem_of_cons.
    destruct (Nat.eqb_spec y x) as [->|_]; [done|]. by rewrite IH.
Qed.

Lemma remove_raises h self o components component :
  h !! self = Some o ->
  components_of o = Some components ->
  component ∉ components ->
  remove self component h = (Raise ValueError, h).
Proof.
  intros Hself Ho Hc. unfold remove.
  rewrite (bind_return _ _ _ _ _ (deref_lookup _ _ _ Hself)).
  destruct o; simplify_eq/=; by rewrite list_remove_absent.
Qed.

(** C2.  On a [Section] or a [Note], [remove] of a node that is none of
    its children raises the lookup failure of [list.remove]
    ([ValueError]); the call does not return. *)
Theorem remove_absent_raises (h : heap) (self : ref) (o : obj)
    (components : list ref) (component : ref) :
  h !! self = Some o ->
  components_of o = Some components ->
  component ∉ components ->
  (remove self component h).1 = Raise ValueError.
Proof.
  intros Hself Ho Hc. by rewrite (remove_raises _ _ _ _ _ Hself Ho Hc).
Qed.

Lemma remove_absent_raises_witness :
  [Section "S" [1; 2]%nat; Text "a"; Text "b"; Text "a"] !! 0%nat
  = Some (Section "S" [1; 2]%nat) /\
  (remove 0 3 [Section "S" [1; 2]%nat; Text "a"; Text "b"; Text "a"]).1
  = Raise ValueError.
Proof.
  split; [reflexivity|].
  apply (remove_absent_raises _ 0%nat (Section "S" [1; 2]%nat) [1; 2]%nat 3%nat).
  - reflexivity.
  - reflexivity.
  - intros Hin. apply list_elem_of_In in Hin. simpl in Hin.
    destruct Hin as [Hin|[Hin|[]]]; discriminate Hin.
Defined.

(** C10.  On a [Section] or a [Note], a [remove] of a node that is none of
    its children leaves the whole store, and so the children list, as it
    was; a [remove] of a node that is among them returns the container
    and deletes the first occurrence only: what stood before it and
    everything after it, later occurrences included, stays in place. *)
Theorem remove_atomic_first_match (h : heap) (self : ref) (o : obj)
    (components : list ref) (component : ref) :
  h !! self = Some o ->
  components_of o = Some components ->
  (component ∉ components -> (remove self component h).2 = h) /\
  (forall before after,
      components = before ++ component :: after ->
      component ∉ before ->
      remove self component h
      = (Return self, <[self := with_components o (before ++ after)]> h)).
Proof.
  intros Hself Ho. split.
  - intros Hc. by rewrite (remove_raises _ _ _ _ _ Hself Ho Hc).
  - intros before after -> Hbefore. unfold remove.
    rewrite (bind_return _ _ _ _ _ (deref_lookup _ _ _ Hself)).
    destruct o; simplify_eq/=; by rewrite list_remove_first.
Qed.

Lemma remove_atomic_first_match_witness :
  let h := [Note "N" [2; 1; 3; 1]%nat []; Text "a"; Text "b"; Text "c"] in
  h !! 0%nat = Some (Note "N" [2; 1; 3; 1]%nat []) /\
  (remove 0 4 h).2 = h /\
  remove 0 1 h
  = (Return 0%nat,
     [Note "N" [2; 3; 1]%nat []; Text "a"; Text "b"; Text "c"]).
Proof.
  intros h.
  destruct (remove_atomic_first_match h 0%nat (Note "N" [2; 1; 3; 1]%nat [])
              [2; 1; 3; 1]%nat 4%nat eq_refl eq_refl) as [Habsent _].
  destruct (remove_atomic_first_match h 0%nat (Note "N" [2; 1; 3; 1]%nat [])
              [2; 1; 3; 1]%nat 1%nat eq_refl eq_refl) as [_ Hfirst].
  split; [reflexivity|]. split.
  - apply Habsent. intros Hin. apply list_elem_of_In in Hin. simpl in Hin.
    destruct Hin as [Hin|[Hin|[Hin|[Hin|[]]]]]; discriminate Hin.
  - apply (Hfirst [2%nat] [3; 1]%nat); [reflexivity|].
    intros Hin. apply list_elem_of_In in Hin. simpl in Hin.
    destruct Hin as [Hin|[]]; discriminate Hin.
Defined.

(** *** Composites from their children, under some recursion limit *)

Lemma renders_Section h self title components indent outs :
  h !! self = Some (Section title components) ->
  Forall2 (fun c s => renders h c indent s) components outs ->
  renders h self indent (section_title_line title indent +:+ join "" outs).
Proof.
  intros Hself [fuel Hcs]%renders_common_fuel.
  exists (S fuel). by eapply render_Section.
Qed.

Lemma renders_Note h self title components metadata indent outs :
  h !! self = Some (Note title components metadata) ->
  Forall2 (fun c s => renders h c indent s) components outs ->
  renders h self indent (note_head title metadata +:+ unlines outs).
Proof.
  intros Hself [fuel Hcs]%renders_common_fuel.
  exists (S fuel). by eapply render_Note.
Qed.

(** C6.  A [Section] renders to [s] exactly when its children, each
    rendered at the very depth the section was given and taken in
    insertion order, return strings [outs] and [s] is the title line (the
    indentation, [## ], the title and a line feed; nothing when the title
    is empty) followed by [outs] one after the other with nothing in
    between. *)
Theorem section_render_children_same_depth (h : heap) (self : ref)
    (title : string) (components : list ref) (indent : Z) (s : string) :
  h !! self = Some (Section title components) ->
  renders h self indent s <->
  exists outs,
    Forall2 (fun c out => renders h c indent out) components outs /\
    s = (if truthy title
         then mul "  " indent +:+ "## " +:+ title +:+ nl
         else "") +:+ String.concat "" outs.
Proof.
  intros Hself. split.
  - intros [[|fuel] E]; [done|].
    apply (render_Section_inv _ _ _ _ _ _ _ _ Hself) in E as (_ & outs & Hcs & ->).
    exists outs. split; [|done].
    eapply Forall2_impl; [exact Hcs|]. intros c out Hc. by exists fuel.
  - intros (outs & Hcs & ->). by eapply renders_Section.
Qed.

Lemma section_render_children_same_depth_witness :
  let h := [Section "A" [1; 3]%nat; Section "" [2]%nat; Text "x"; Heading "H"] in
  h !! 0%nat = Some (Section "A" [1; 3]%nat) /\
  renders h 0 1 ("  ## A" +:+ nl +:+ "  x" +:+ nl +:+ "  # H" +:+ nl).
Proof.
  intros h. split; [reflexivity|].
  apply (proj2 (section_render_children_same_depth h 0%nat "A" [1; 3]%nat 1
                  _ eq_refl)).
  exists ["  x" +:+ nl; "  # H" +:+ nl]. split; [|reflexivity].
  constructor; [|constructor; [|constructor]].
  - exists 2%nat. reflexivity.
  - exists 1%nat. reflexivity.
Defined.

(** *** [set_metadata] *)

Lemma dict_setitem_new key value (d : dict) :
  key ∉ d.*1 -> dict_setitem key value d = d ++ [(key, value)].
Proof.
  induction d as [|[k v] d IH]; [done|]. simpl.
  intros [Hk Hd]%not_elem_of_cons.
  destruct (String.eqb_spec k key) as [->|_]; [done|]. by rewrite IH.
Qed.

Lemma dict_setitem_old key value old (before after : dict) :
  key ∉ before.*1 ->
  dict_setitem key value (before ++ (key, old) :: after)
  = before ++ (key, value) :: after.
Proof.
  induction before as [|[k v] d IH]; simpl.
  - by rewrite String.eqb_refl.
  - intros [Hk Hd]%not_elem_of_cons.
    destruct (String.eqb_spec k key) as [->|_]; [done|]. by rewrite IH.
Qed.

(** C8.  On a [Note], [set_metadata(key, value)] returns the note and
    changes its metadata only: a key not yet present is appended after
    all others, a key already present keeps its place and gets the new
    value; [render] then writes, between the two [---] lines, one
    [key: value] line per entry in that order, after the title and before
    the children. *)
Theorem set_metadata_ordered_upsert (h : heap) (self : ref) (title : string)
    (components : list ref) (metadata : dict) (key value : string) :
  h !! self = Some (Note title components metadata) ->
  let metadata' := dict_setitem key value metadata in
  let h' := <[self := Note title components metadata']> h in
  set_metadata self key value h = (Return self, h') /\
  (key ∉ metadata.*1 -> metadata' = metadata ++ [(key, value)]) /\
  (forall before old after,
      metadata = before ++ (key, old) :: after ->
      key ∉ before.*1 ->
      metadata' = before ++ (key, value) :: after) /\
  (forall indent outs,
      Forall2 (fun c out => renders h' c indent out) components outs ->
      renders h' self indent
        ("# " +:+ title +:+ nl +:+ nl +:+
         unlines (["---"] ++
                  map (fun '(k, v) => k +:+ ": " +:+ v) metadata' ++
                  ["---"; ""]) +:+
         unlines outs)).
Proof.
  intros Hself metadata' h'. split; [by apply set_metadata_Note|].
  split; [apply dict_setitem_new|].
  split; [intros before old after ->; apply dict_setitem_old|].
  intros indent outs Hcs.
  assert (Hself' : h' !! self = Some (Note title components metadata')).
  { apply list_lookup_insert_eq. by eapply lookup_lt_Some. }
  pose proof (renders_Note _ _ _ _ _ _ _ Hself' Hcs) as Hr.
  assert (exists kv md, metadata' = kv :: md) as (kv & md & E).
  { subst metadata'. destruct metadata as [|[k v] md]; simpl; [eauto|].
    destruct (String.eqb k key); eauto. }
  clearbody h' metadata'. subst metadata'.
  unfold note_head, metadata_block, metadata_lines in Hr.
  by rewrite !str_app_assoc in Hr.
Qed.

Lemma set_metadata_ordered_upsert_witness :
  let h := [Text "hi"; Note "T" [0%nat] [("a", "1"); ("b", "2")]] in
  h !! 1%nat = Some (Note "T" [0%nat] [("a", "1"); ("b", "2")]) /\
  set_metadata 1 "a" "3" h
  = (Return 1%nat, [Text "hi"; Note "T" [0%nat] [("a", "3"); ("b", "2")]]) /\
  renders [Text "hi"; Note "T" [0%nat] [("a", "3"); ("b", "2")]] 1 0
    ("# T" +:+ nl +:+ nl +:+
     "---" +:+ nl +:+ "a: 3" +:+ nl +:+ "b: 2" +:+ nl +:+ "---" +:+ nl +:+ nl +:+
     "hi" +:+ nl +:+ nl).
Proof.
  intros h. split; [reflexivity|].
  destruct (set_metadata_ordered_upsert h 1%nat "T" [0%nat]
              [("a", "1"); ("b", "2")] "a" "3" eq_refl)
    as (Hset & _ & _ & Hrender).
  split; [exact Hset|].
  apply (Hrender 0 ["hi" +:+ nl]).
  constructor; [|constructor]. exists 1%nat. reflexivity.
Defined.

(** *** Totality on finite trees, and purity *)

Lemma Forall_exists_Forall2 {A B} (P : A -> B -> Prop) (l : list A) :
  Forall (fun x => exists y, P x y) l -> exists ys, Forall2 P l ys.
Proof.
  induction 1 as [|x l [y Hy] _ [ys IH]].
  - exists []. constructor.
  - exists (y :: ys). by constructor.
Qed.

Lemma forallb_Forall {A} (f : A -> bool) (l : list A) :
  forallb f l = true -> Forall (fun x => f x = true) l.
Proof.
  induction l as [|x l IH]; simpl; [constructor|].
  intros [Hx Hl]%andb_true_iff. constructor; auto.
Qed.

Lemma fold_left_snoc {A} (outs acc : list A) :
  fold_left (fun acc s => acc ++ [s]) outs acc = acc ++ outs.
Proof.
  revert acc. induction outs as [|s outs IH]; intros acc; simpl.
  - by rewrite app_nil_r.
  - by rewrite IH, <- (assoc_L (++)).
Qed.

Lemma get_text_content_Section fuel h self title components outs :
  h !! self = Some (Section title components) ->
  Forall2 (fun c s => get_text_content fuel c h = (Return s, h)) components outs ->
  get_text_content (S fuel) self h
  = (Return (join " " ((if truthy title then [title] else []) ++ outs)), h).
Proof.
  intros Hself Hcs.
  rewrite get_text_content_S, (bind_return _ _ _ _ _ (deref_lookup _ _ _ Hself)).
  unfold Section_get_text_content, extend_text.
  erewrite bind_return;
    [|apply (for_each_collect (get_text_content fuel) (fun acc s => acc ++ [s])), Hcs].
  by rewrite fold_left_snoc.
Qed.

Lemma get_text_content_Note fuel h self title components metadata outs :
  h !! self = Some (Note title components metadata) ->
  Forall2 (fun c s => get_text_content fuel c h = (Return s, h)) components outs ->
  get_text_content (S fuel) self h = (Return (join " " (title :: outs)), h).
Proof.
  intros Hself Hcs.
  rewrite get_text_content_S, (bind_return _ _ _ _ _ (deref_lookup _ _ _ Hself)).
  unfold Note_get_text_content, extend_text.
  erewrite bind_return;
    [|apply (for_each_collect (get_text_content fuel) (fun acc s => acc ++ [s])), Hcs].
  by rewrite fold_left_snoc.
Qed.

(** On a tree no deeper than the recursion limit, [render] returns. *)
Lemma render_total fuel h self indent :
  depth_within fuel h self = true ->
  exists s, render fuel self indent h = (Return s, h).
Proof.
  revert self. induction fuel as [|fuel IH]; intros self; [done|].
  simpl depth_within.
  destruct (h !! self) as [o|] eqn:Hself; [|done]. intros Hall%forallb_Forall.
  assert (exists outs,
             Forall2 (fun c s => render fuel c indent h = (Return s, h))
                     (children o) outs) as [outs Houts].
  { apply Forall_exists_Forall2. eapply Forall_impl; [exact Hall|]. apply IH. }
  destruct o as [ | | | | | title cs | title cs md];
    try (rewrite render_S, (bind_return _ _ _ _ _ (deref_lookup _ _ _ Hself));
         by eexists).
  - eexists. by eapply render_Section.
  - eexists. by eapply render_Note.
Qed.

Lemma get_text_content_total fuel h self :
  depth_within fuel h self = true ->
  exists s, get_text_content fuel self h = (Return s, h).
Proof.
  revert self. induction fuel as [|fuel IH]; intros self; [done|].
  simpl depth_within.
  destruct (h !! self) as [o|] eqn:Hself; [|done]. intros Hall%forallb_Forall.
  assert (exists outs,
             Forall2 (fun c s => get_text_content fuel c h = (Return s, h))
                     (children o) outs) as [outs Houts].
  { apply Forall_exists_Forall2. eapply Forall_impl; [exact Hall|]. apply IH. }
  destruct o as [ | | | | | title cs | title cs md];
    try (rewrite get_text_content_S,
           (bind_return _ _ _ _ _ (deref_lookup _ _ _ Hself));
         by eexists).
  - eexists. by eapply get_text_content_Section.
  - eexists. by eapply get_text_content_Note.
Qed.

Lemma twice_return {A} (m : py A) h a :
  m h = (Return a, h) -> twice m h = (Return (a, a), h).
Proof.
  intros E. unfold twice. by rewrite !(bind_return _ _ _ _ _ E).
Qed.

(** C9.  On a tree of objects without cycle, no deeper than the recursion
    limit, [render] and [get_text_content] return, two calls in a row
    return the same string, and the store after the calls is the store
    before them: no field of any object has changed.  The store is left
    unchanged on every store and under every limit, also when the call
    raises. *)
Theorem render_get_text_content_pure (h : heap) (self : ref) (indent : Z)
    (fuel : nat) :
  depth_within fuel h self = true ->
  (exists s,
      render fuel self indent h = (Return s, h) /\
      twice (render fuel self indent) h = (Return (s, s), h)) /\
  (exists t,
      get_text_content fuel self h = (Return t, h) /\
      twice (get_text_content fuel self) h = (Return (t, t), h)) /\
  read_only (render fuel self indent) /\
  read_only (get_text_content fuel self).
Proof.
  intros Hdepth. repeat split.
  - destruct (render_total _ _ _ indent Hdepth) as [s Hs].
    exists s. split; [done|]. by apply twice_return.
  - destruct (get_text_content_total _ _ _ Hdepth) as [t Ht].
    exists t. split; [done|]. by apply twice_return.
  - apply render_read_only.
  - apply get_text_content_read_only.
Qed.

Lemma render_get_text_content_pure_witness :
  let h := [Note "N" [1; 3]%nat [("k", "v")]; Section "S" [2; 2]%nat;
            Text "a"; CodeBlock "x=1" "python"] in
  depth_within 3 h 0 = true /\
  twice (render 3 0 0) h
  = (Return (let s := "# N" +:+ nl +:+ nl +:+
                      "---" +:+ nl +:+ "k: v" +:+ nl +:+ "---" +:+ nl +:+ nl +:+
                      "## S" +:+ nl +:+ "a" +:+ nl +:+ "a" +:+ nl +:+ nl +:+
                      "```python" +:+ nl +:+ "x=1" +:+ nl +:+ "```" +:+ nl +:+ nl
             in (s, s)), h) /\
  twice (get_text_content 3 0) h = (Return ("N S a a x=1", "N S a a x=1"), h).
Proof.
  intros h.
  destruct (render_get_text_content_pure h 0%nat 0 3 eq_refl)
    as ((s & Hs & Hss) & (t & Ht & Htt) & _ & _).
  split; [reflexivity|]. split.
  - rewrite Hss. vm_compute in Hs. by injection Hs as <-.
  - rewrite Htt. vm_compute in Ht. by injection Ht as <-.
Defined.

(** *** Indentation *)

Lemma prefixed_bodies_ok indent (bodies : list string) :
  Forall (fun b => one_line b = true) bodies ->
  Forall (fun l => one_line l = true /\ startswith (mul "  " indent) l = true)
         (map (fun line => mul "  " indent +:+ line) bodies).
Proof.
  intros Hb. apply Forall_map. eapply Forall_impl; [exact Hb|].
  simpl. intros b Hone. split; [|apply startswith_app].
  by rewrite one_line_app, one_line_mul, Hone.
Qed.

Lemma Heading_render_lines text indent :
  Heading_render text indent
  = unlines (map (fun line => mul "  " indent +:+ line) ["# " +:+ text]).
Proof.
  unfold Heading_render. simpl map.
  by rewrite unlines_cons, unlines_nil, str_app_nil_r, !str_app_assoc.
Qed.

Lemma Subheading_render_lines text level indent :
  Subheading_render text level indent
  = unlines (map (fun line => mul "  " indent +:+ line)
               [mul "#" level +:+ " " +:+ text]).
Proof.
  unfold Subheading_render. simpl map.
  by rewrite unlines_cons, unlines_nil, str_app_nil_r, !str_app_assoc.
Qed.

Lemma Text_render_lines content indent :
  Text_render content indent
  = unlines (map (fun line => mul "  " indent +:+ line) (split_nl content)).
Proof.
  unfold Text_render. apply join_nl_unlines.
  pose proof (split_nl_nonempty content). by destruct (split_nl content).
Qed.

Lemma CodeBlock_render_lines code language indent :
  CodeBlock_render code language indent
  = unlines (map (fun line => mul "  " indent +:+ line)
               (("```" +:+ language) :: split_nl code ++ ["```"])).
Proof.
  unfold CodeBlock_render. rewrite join_nl_unlines by done.
  by rewrite map_cons, map_app.
Qed.

Lemma Diagram_render_lines content diagram_type indent :
  Diagram_render content diagram_type indent
  = unlines (map (fun line => mul "  " indent +:+ line)
               (("[Diagram: " +:+ diagram_type +:+ "]")
                  :: split_nl content ++ ["[End Diagram]"])).
Proof.
  unfold Diagram_render. rewrite join_nl_unlines by done.
  by rewrite map_cons, map_app.
Qed.

Lemma section_title_line_lines title indent :
  section_title_line title indent
  = unlines (map (fun line => mul "  " indent +:+ line)
               (if truthy title then ["## " +:+ title] else [])).
Proof.
  unfold section_title_line. destruct (truthy title); [|done]. simpl map.
  by rewrite unlines_cons, unlines_nil, str_app_nil_r, !str_app_assoc.
Qed.

Lemma join_unlines_children (P : string -> Prop) (outs : list string) :
  Forall (fun out => exists ls, out = unlines ls /\ Forall P ls) outs ->
  exists ls, join "" outs = unlines ls /\ Forall P ls.
Proof.
  induction 1 as [|out outs (ls1 & -> & H1) _ (ls2 & IH & H2)].
  - exists []. by split.
  - exists (ls1 ++ ls2). split; [|by apply Forall_app].
    by rewrite join_empty_cons, IH, unlines_app.
Qed.

(** A field written on one line is prefixed once: a line feed inside a
    heading text starts a line that carries no indentation.  This is why
    the property on indentation asks such fields to hold no line feed. *)
Example heading_with_line_feed :
  render 1 0 1 [Heading ("a" +:+ nl +:+ "b")]
  = (Return ("  # a" +:+ nl +:+ "b" +:+ nl), [Heading ("a" +:+ nl +:+ "b")]) /\
  lines ("  # a" +:+ nl +:+ "b" +:+ nl) = ["  # a"; "b"].
Proof. split; reflexivity. Qed.

(** C3, as the specification words it, fails on a [Note] rendered at
    depth 1: its title line is written at the left margin. *)
Lemma note_title_line_not_indented :
  render 1 0 1 [Note "T" [] []]
  = (Return ("# T" +:+ nl +:+ nl), [Note "T" [] []]) /\
  lines ("# T" +:+ nl +:+ nl) = ["# T"; ""] /\
  startswith (mul "  " 1) "# T" = false /\
  ~ indent_uniform 1 [Note "T" [] []] 0 1.
Proof.
  split; [reflexivity|]. split; [reflexivity|]. split; [reflexivity|].
  intros Huniform. specialize (Huniform _ _ eq_refl).
  unfold indented in Huniform. apply Forall_cons in Huniform as [Hline _].
  discriminate Hline.
Qed.

(** ** Further properties of the code *)

Lemma heap_insert_insert (h : heap) (r : ref) o1 o2 :
  <[r := o1]> (<[r := o2]> h) = <[r := o1]> h.
Proof. apply list_insert_insert_eq. Qed.

Lemma heap_insert_id (h : heap) (r : ref) o : h !! r = Some o -> <[r := o]> h = h.
Proof. apply list_insert_id. Qed.

Lemma heap_lookup_insert (h : heap) (r : ref) o :
  (r < length h)%nat -> <[r := o]> h !! r = Some o.
Proof. apply list_lookup_insert_eq. Qed.

Lemma heap_lookup_insert_ne (h : heap) (r r' : ref) o :
  r <> r' -> <[r := o]> h !! r' = h !! r'.
Proof. apply list_lookup_insert_ne. Qed.

(** *** Metadata as a dictionary *)

Lemma dict_setitem_keys_NoDup key value (d : dict) :
  NoDup d.*1 -> NoDup (dict_setitem key value d).*1.
Proof.
  induction d as [|[k v] d IH]; simpl.
  - intros _. apply NoDup_singleton.
  - intros [Hk Hd]%NoDup_cons. destruct (String.eqb_spec k key) as [->|Hne]; simpl.
    + by apply NoDup_cons.
    + apply NoDup_cons. split; [|by apply IH].
      clear -Hk Hne. induction d as [|[k' v'] d IH]; simpl in *.
      * intros [->|[]%elem_of_nil]%elem_of_cons. done.
      * apply not_elem_of_cons in Hk as [Hkk' Hk].
        destruct (String.eqb_spec k' key) as [->|_]; simpl.
        -- by apply not_elem_of_cons.
        -- apply not_elem_of_cons. split; [done|]. by apply IH.
Qed.

Lemma dict_get_setitem_eq key value (d : dict) :
  dict_get key (dict_setitem key value d) = Some value.
Proof.
  induction d as [|[k v] d IH]; simpl.
  - by rewrite String.eqb_refl.
  - destruct (String.eqb_spec k key) as [->|Hne]; simpl.
    + by rewrite String.eqb_refl.
    + by apply String.eqb_neq in Hne as ->.
Qed.

Lemma dict_get_setitem_ne key key' value (d : dict) :
  key' <> key -> dict_get key' (dict_setitem key value d) = dict_get key' d.
Proof.
  intros Hne. induction d as [|[k v] d IH]; simpl.
  - by apply not_eq_sym, String.eqb_neq in Hne as ->.
  - destruct (String.eqb_spec k key) as [->|Hk]; simpl.
    + by apply not_eq_sym, String.eqb_neq in Hne as ->.
    + by rewrite IH.
Qed.

Lemma dict_setitem_length key value (d : dict) :
  (length d <= length (dict_setitem key value d) <= S (length d))%nat.
Proof.
  induction d as [|[k v] d IH]; simpl; [lia|].
  destruct (String.eqb k key); simpl; lia.
Qed.

Lemma dict_setitem_twice key v1 v2 (d : dict) :
  dict_setitem key v2 (dict_setitem key v1 d) = dict_setitem key v2 d.
Proof.
  induction d as [|[k v] d IH]; simpl.
  - by rewrite String.eqb_refl.
  - destruct (String.eqb k key) eqn:E; simpl; rewrite E; [done|]. by rewrite IH.
Qed.

(** X1.  [set_metadata] keeps the keys of a note distinct: on a note whose
    keys are distinct, the call leaves a note whose keys are distinct,
    where [key] maps to [value], every other key maps to what it mapped
    to before, and the number of entries has grown by one at most; the
    title and the children are untouched. *)
Theorem set_metadata_keeps_keys_distinct (h : heap) (self : ref)
    (title : string) (components : list ref) (metadata : dict)
    (key value : string) :
  h !! self = Some (Note title components metadata) ->
  NoDup metadata.*1 ->
  exists metadata',
    (set_metadata self key value h).2 !! self
    = Some (Note title components metadata') /\
    NoDup metadata'.*1 /\
    dict_get key metadata' = Some value /\
    (forall key', key' <> key -> dict_get key' metadata' = dict_get key' metadata) /\
    (length metadata <= length metadata' <= S (length metadata))%nat.
Proof.
  intros Hself Hnodup. exists (dict_setitem key value metadata).
  rewrite (set_metadata_Note _ _ _ _ _ _ _ Hself). simpl. split.
  { apply list_lookup_insert_eq. by eapply lookup_lt_Some. }
  split; [by apply dict_setitem_keys_NoDup|].
  split; [apply dict_get_setitem_eq|].
  split; [intros key'; apply dict_get_setitem_ne|apply dict_setitem_length].
Qed.

Lemma set_metadata_keeps_keys_distinct_witness :
  let h := [Note "T" [] [("a", "1"); ("b", "2")]] in
  h !! 0%nat = Some (Note "T" [] [("a", "1"); ("b", "2")]) /\
  exists metadata',
    (set_metadata 0 "b" "3" h).2 !! 0%nat = Some (Note "T" [] metadata') /\
    NoDup metadata'.*1 /\
    dict_get "b" metadata' = Some "3" /\
    (forall key', key' <> "b" ->
                  dict_get key' metadata' = dict_get key' [("a", "1"); ("b", "2")]) /\
    (2 <= length metadata' <= 3)%nat.
Proof.
  intros h. split; [reflexivity|].
  apply (set_metadata_keeps_keys_distinct h 0%nat "T" [] [("a", "1"); ("b", "2")]
           "b" "3" eq_refl).
  apply NoDup_cons. split.
  - intros Hin. apply list_elem_of_In in Hin. simpl in Hin.
    destruct Hin as [Hin|[]]; discriminate Hin.
  - apply NoDup_singleton.
Defined.

(** X2.  Two [set_metadata] calls on the same key in a row leave the note
    as the second call alone would: the last value wins, and the entry
    stays where the key first went in. *)
Theorem set_metadata_last_write_wins (h : heap) (self : ref) (title : string)
    (components : list ref) (metadata : dict) (key v1 v2 : string) :
  h !! self = Some (Note title components metadata) ->
  (set_metadata self key v1 ;;; set_metadata self key v2) h
  = set_metadata self key v2 h.
Proof.
  intros Hself.
  assert (Hlt : (self < length h)%nat) by by eapply lookup_lt_Some.
  rewrite (bind_return _ _ _ _ _ (set_metadata_Note _ _ _ _ _ key v1 Hself)).
  rewrite (set_metadata_Note _ _ _ _ _ key v2 Hself).
  rewrite (set_metadata_Note _ _ _ _ _ key v2
             (heap_lookup_insert h self _ Hlt)).
  by rewrite heap_insert_insert, dict_setitem_twice.
Qed.

Lemma set_metadata_last_write_wins_witness :
  let h := [Note "T" [] [("a", "1"); ("b", "2")]] in
  h !! 0%nat = Some (Note "T" [] [("a", "1"); ("b", "2")]) /\
  (set_metadata 0 "a" "x" ;;; set_metadata 0 "a" "y") h
  = (Return 0%nat, [Note "T" [] [("a", "y"); ("b", "2")]]).
Proof.
  intros h. split; [reflexivity|].
  rewrite (set_metadata_last_write_wins h 0%nat "T" []
             [("a", "1"); ("b", "2")] "a" "x" "y" eq_refl).
  reflexivity.
Defined.

(** *** [add] and [remove] together *)

Lemma remove_first_returns h self o components component :
  h !! self = Some o ->
  components_of o = Some components ->
  forall before after,
    components = before ++ component :: after ->
    component ∉ before ->
    remove self component h
    = (Return self, <[self := with_components o (before ++ after)]> h).
Proof.
  intros Hself Ho before after -> Hbefore. unfold remove.
  rewrite (bind_return _ _ _ _ _ (deref_lookup _ _ _ Hself)).
  destruct o; simplify_eq/=; by rewrite list_remove_first.
Qed.

Lemma list_remove_snoc_absent x l : x ∉ l -> list_remove x (l ++ [x]) = Some l.
Proof.
  intros Hx. rewrite (list_remove_first x l [] Hx). by rewrite app_nil_r.
Qed.

Lemma with_components_twice o cs1 cs2 :
  with_components (with_components o cs1) cs2 = with_components o cs2.
Proof. by destruct o. Qed.

Lemma components_of_with_components o cs cs' :
  components_of o = Some cs ->
  components_of (with_components o cs') = Some cs'.
Proof. by destruct o. Qed.

Lemma with_components_id o cs :
  components_of o = Some cs -> with_components o cs = o.
Proof. destruct o; intros; by simplify_eq/=. Qed.

(** X3.  On a [Section] or a [Note], [add(component)] followed by
    [remove(component)] returns the container and never raises.  When
    the component was no child before, the store is back to what it was;
    when it was one, its first occurrence is gone and the component now
    stands last. *)
Theorem add_then_remove (h : heap) (self : ref) (o : obj)
    (components : list ref) (component : ref) :
  h !! self = Some o ->
  components_of o = Some components ->
  (component ∉ components ->
   (add self component ;;; remove self component) h = (Return self, h)) /\
  (forall before after,
      components = before ++ component :: after ->
      component ∉ before ->
      (add self component ;;; remove self component) h
      = (Return self,
         <[self := with_components o (before ++ after ++ [component])]> h)).
Proof.
  intros Hself Ho.
  assert (Hlt : (self < length h)%nat) by by eapply lookup_lt_Some.
  pose proof (add_composite _ _ _ _ component Hself Ho) as Hadd.
  pose proof (heap_lookup_insert h self
                (with_components o (components ++ [component])) Hlt) as Hself'.
  pose proof (components_of_with_components _ _ (components ++ [component]) Ho)
    as Ho'.
  pose proof (remove_first_returns _ _ _ _ component Hself' Ho') as Hfirst.
  split.
  - intros Hc. rewrite (bind_return _ _ _ _ _ Hadd). cbv beta.
    rewrite (Hfirst components []); [|done|done].
    rewrite app_nil_r, heap_insert_insert, with_components_twice.
    by rewrite (with_components_id _ _ Ho), heap_insert_id.
  - intros before after -> Hbefore. rewrite (bind_return _ _ _ _ _ Hadd).
    cbv beta. rewrite (Hfirst before (after ++ [component]));
      [|by rewrite <- (assoc_L (++))|done].
    by rewrite heap_insert_insert, with_components_twice.
Qed.

Lemma add_then_remove_witness :
  let h := [Section "S" [1; 2; 1]%nat; Text "a"; Text "b"; Text "c"] in
  h !! 0%nat = Some (Section "S" [1; 2; 1]%nat) /\
  (add 0 3 ;;; remove 0 3) h = (Return 0%nat, h) /\
  (add 0 1 ;;; remove 0 1) h
  = (Return 0%nat, [Section "S" [2; 1; 1]%nat; Text "a"; Text "b"; Text "c"]).
Proof.
  intros h.
  destruct (add_then_remove h 0%nat (Section "S" [1; 2; 1]%nat) [1; 2; 1]%nat
              3%nat eq_refl eq_refl) as [Hfresh _].
  destruct (add_then_remove h 0%nat (Section "S" [1; 2; 1]%nat) [1; 2; 1]%nat
              1%nat eq_refl eq_refl) as [_ Hold].
  split; [reflexivity|]. split.
  - apply Hfresh. intros Hin. apply list_elem_of_In in Hin. simpl in Hin.
    destruct Hin as [Hin|[Hin|[Hin|[]]]]; discriminate Hin.
  - apply (Hold [] [2; 1]%nat); [reflexivity|]. apply not_elem_of_nil.
Defined.

(** *** Content written verbatim *)

Lemma is_LF_eq c : is_LF c = true -> c = LF.
Proof. unfold is_LF. apply Ascii.eqb_eq. Qed.

Lemma join_cons_cons sep x y l :
  join sep (x :: y :: l) = x +:+ sep +:+ join sep (y :: l).
Proof. reflexivity. Qed.

Lemma join_cons_nonempty sep x l :
  l <> [] -> join sep (x :: l) = x +:+ sep +:+ join sep l.
Proof. by destruct l. Qed.

Lemma join_snoc_nonempty sep l x :
  l <> [] -> join sep (l ++ [x]) = join sep l +:+ sep +:+ x.
Proof.
  induction l as [|y l IH]; [done|]. intros _. destruct l as [|z l].
  - reflexivity.
  - change ((y :: z :: l) ++ [x]) with (y :: (z :: l) ++ [x]).
    rewrite join_cons_nonempty by done. rewrite IH by done.
    by rewrite join_cons_cons, !str_app_assoc.
Qed.

Lemma join_singleton_app sep x l :
  l <> [] -> join sep ([x] ++ l) = x +:+ sep +:+ join sep l.
Proof. apply join_cons_nonempty. Qed.

(** Splitting at line feeds and joining with line feeds gives the string
    back. *)
Lemma join_split_nl s : join nl (split_nl s) = s.
Proof.
  induction s as [|c s IH]; [done|]. simpl.
  destruct (is_LF c) eqn:Hc.
  - rewrite join_cons_nonempty by apply split_nl_nonempty.
    rewrite IH. by apply is_LF_eq in Hc as ->.
  - pose proof (split_nl_nonempty s) as Hne.
    destruct (split_nl s) as [|l ls]; [done|]. rewrite <- IH.
    by destruct ls.
Qed.

Lemma mul_nonpositive s indent : indent <= 0 -> mul s indent = "".
Proof. intros Hle. unfold mul. by replace (Z.to_nat indent) with 0%nat by lia. Qed.

Lemma map_empty_prefix (ls : list string) : map (fun line => "" +:+ line) ls = ls.
Proof. induction ls as [|l ls IH]; [done|]. simpl. by rewrite IH. Qed.

(** X4.  At depth 0, and at every negative depth that Python's string
    multiplication accepts (from [-2^63] on; below it the call raises
    [OverflowError]), the three leaves that hold text of several lines
    write it verbatim: a [Text] renders to its content and a line feed,
    a [CodeBlock] to the opening fence with the language, the code and
    the closing fence, a [Diagram] to the opening marker with the type,
    the content and the closing marker, each followed by a line feed. *)
Theorem leaves_render_content_verbatim (content other : string) (indent : Z) :
  PY_SSIZE_T_MIN <= indent <= 0 ->
  Text_render content indent = content +:+ nl /\
  CodeBlock_render content other indent
  = "```" +:+ other +:+ nl +:+ content +:+ nl +:+ "```" +:+ nl /\
  Diagram_render content other indent
  = "[Diagram: " +:+ other +:+ "]" +:+ nl +:+ content +:+ nl +:+
    "[End Diagram]" +:+ nl.
Proof.
  intros [_ Hle]. unfold Text_render, CodeBlock_render, Diagram_render.
  rewrite (mul_nonpositive _ _ Hle), !map_empty_prefix, !str_app_nil_l.
  rewrite join_split_nl. split; [done|].
  pose proof (split_nl_nonempty content) as Hne.
  assert (Hne' : forall x : string, [x] ++ split_nl content <> [])
    by by intros x.
  rewrite !join_snoc_nonempty by done.
  rewrite !join_singleton_app, join_split_nl by done.
  by rewrite !str_app_assoc.
Qed.

Lemma leaves_render_content_verbatim_witness :
  PY_SSIZE_T_MIN <= -2 <= 0 /\
  Text_render ("a" +:+ nl +:+ " b") (-2) = "a" +:+ nl +:+ " b" +:+ nl /\
  CodeBlock_render ("x" +:+ nl +:+ nl +:+ "y") "py" 0
  = "```py" +:+ nl +:+ "x" +:+ nl +:+ nl +:+ "y" +:+ nl +:+ "```" +:+ nl.
Proof.
  assert (Hin : forall z, -2 <= z <= 0 -> PY_SSIZE_T_MIN <= z <= 0)
    by (unfold PY_SSIZE_T_MIN; lia).
  split; [apply Hin; lia|].
  destruct (leaves_render_content_verbatim ("a" +:+ nl +:+ " b") "" (-2))
    as [Htext _]; [apply Hin; lia|].
  destruct (leaves_render_content_verbatim ("x" +:+ nl +:+ nl +:+ "y") "py" 0)
    as (_ & Hcode & _); [apply Hin; lia|].
  split; [exact Htext|exact Hcode].
Defined.

Lemma count_LF_split s :
  length (split_nl s) = S (count_char LF s).
Proof.
  induction s as [|c s IH]; [done|]. simpl. unfold is_LF.
  destruct (Ascii.eqb c LF); simpl; [by rewrite IH|].
  destruct (split_nl s); simpl in *; lia.
Qed.

(** X5.  At every depth the lines of a rendered [Text] are the lines of
    its content, in order, each after the indentation of the call: one
    line more than the content has line feeds, and joining the content's
    lines with line feeds gives the content back. *)
Theorem text_render_lines_roundtrip (content : string) (indent : Z) :
  lines (Text_render content indent)
  = map (fun line => mul "  " indent +:+ line) (split_nl content) /\
  join nl (split_nl content) = content /\
  length (lines (Text_render content indent)) = S (count_char LF content).
Proof.
  assert (Hlines : lines (Text_render content indent)
                   = map (fun line => mul "  " indent +:+ line) (split_nl content)).
  { rewrite Text_render_lines. apply lines_unlines.
    eapply Forall_impl; [apply prefixed_bodies_ok, split_nl_one_line|].
    by intros l [Hl _]. }
  split; [exact Hlines|]. split; [apply join_split_nl|].
  by rewrite Hlines, length_map, count_LF_split.
Qed.

(** *** Calls compared across two stores *)

Lemma read_only_eq {A} (m1 m2 : py A) h :
  read_only m1 -> read_only m2 -> (m1 h).1 = (m2 h).1 -> m1 h = m2 h.
Proof.
  intros H1 H2. destruct (m1 h) as [o1 h1] eqn:E1, (m2 h) as [o2 h2] eqn:E2.
  apply H1 in E1. apply H2 in E2. simpl. by intros ->; subst.
Qed.

Lemma read_only_run {A} (m : py A) h : read_only m -> m h = ((m h).1, h).
Proof.
  intros Hm. destruct (m h) as [o h'] eqn:E. apply Hm in E. by subst.
Qed.

Lemma bind_rel {A B} (m1 m2 : py A) (k1 k2 : A -> py B) h1 h2 :
  read_only m1 -> read_only m2 ->
  (m1 h1).1 = (m2 h2).1 ->
  (forall a, (k1 a h1).1 = (k2 a h2).1) ->
  (bind m1 k1 h1).1 = (bind m2 k2 h2).1.
Proof.
  intros H1 H2 Hm Hk. unfold bind.
  rewrite (read_only_run m1 h1 H1), (read_only_run m2 h2 H2), Hm.
  destruct (m2 h2).1; [apply Hk|done].
Qed.

Lemma for_each_rel {A S} (l : list A) (body1 body2 : A -> S -> py S) acc h1 h2 :
  (forall x acc, read_only (body1 x acc)) ->
  (forall x acc, read_only (body2 x acc)) ->
  (forall x acc, x ∈ l -> (body1 x acc h1).1 = (body2 x acc h2).1) ->
  (for_each l body1 acc h1).1 = (for_each l body2 acc h2).1.
Proof.
  intros H1 H2. revert acc. induction l as [|x l IH]; intros acc Hb; [done|].
  simpl. apply bind_rel; [apply H1|apply H2|apply Hb; left|].
  intros acc'. apply IH. intros y acc'' Hy. apply Hb. by right.
Qed.

Lemma read_only_collect {A B S} (f : A -> py B) (step : S -> B -> S) x acc :
  read_only (f x) -> read_only (b <- f x ;; ret (step acc b)).
Proof. intros Hf. apply read_only_bind; [done|]. intros; apply read_only_ret. Qed.

(** The loops of the composites, over two stores and two ways of calling
    the children that agree on every child. *)
Lemma collect_rel {A B S} (f1 f2 : A -> py B) (step : S -> B -> S)
    (k : S -> string) l acc h1 h2 :
  (forall x, read_only (f1 x)) ->
  (forall x, read_only (f2 x)) ->
  (forall x, x ∈ l -> (f1 x h1).1 = (f2 x h2).1) ->
  ((res <- for_each l (fun x acc => b <- f1 x ;; ret (step acc b)) acc ;;
    ret (k res)) h1).1
  = ((res <- for_each l (fun x acc => b <- f2 x ;; ret (step acc b)) acc ;;
      ret (k res)) h2).1.
Proof.
  intros H1 H2 Hf. apply bind_rel.
  - apply read_only_for_each. intros. by apply read_only_collect.
  - apply read_only_for_each. intros. by apply read_only_collect.
  - apply for_each_rel.
    + intros. by apply read_only_collect.
    + intros. by apply read_only_collect.
    + intros x acc' Hx. apply bind_rel; [apply H1|apply H2|by apply Hf|done].
  - done.
Qed.

Lemma Section_render_rel f1 f2 title cs indent h1 h2 :
  (forall c d, read_only (f1 c d)) ->
  (forall c d, read_only (f2 c d)) ->
  (forall c, c ∈ cs -> (f1 c indent h1).1 = (f2 c indent h2).1) ->
  (Section_render f1 title cs indent h1).1
  = (Section_render f2 title cs indent h2).1.
Proof.
  intros H1 H2 Hf. unfold Section_render.
  apply (collect_rel (fun c => f1 c indent) (fun c => f2 c indent)
           (fun acc s => acc ++ [s]) (join "")); auto.
Qed.

Lemma Note_render_rel f1 f2 title cs md indent h1 h2 :
  (forall c d, read_only (f1 c d)) ->
  (forall c d, read_only (f2 c d)) ->
  (forall c, c ∈ cs -> (f1 c indent h1).1 = (f2 c indent h2).1) ->
  (Note_render f1 title cs md indent h1).1
  = (Note_render f2 title cs md indent h2).1.
Proof.
  intros H1 H2 Hf. unfold Note_render.
  apply (collect_rel (fun c => f1 c indent) (fun c => f2 c indent)
           (fun acc s => (acc ++ [s]) ++ [nl]) (join "")); auto.
Qed.

Lemma Section_get_text_content_rel f1 f2 title cs h1 h2 :
  (forall c, read_only (f1 c)) ->
  (forall c, read_only (f2 c)) ->
  (forall c, c ∈ cs -> (f1 c h1).1 = (f2 c h2).1) ->
  (Section_get_text_content f1 title cs h1).1
  = (Section_get_text_content f2 title cs h2).1.
Proof.
  intros H1 H2 Hf. unfold Section_get_text_content, extend_text.
  apply (collect_rel f1 f2 (fun acc s => acc ++ [s]) (join " ")); auto.
Qed.

Lemma Note_get_text_content_rel f1 f2 title cs h1 h2 :
  (forall c, read_only (f1 c)) ->
  (forall c, read_only (f2 c)) ->
  (forall c, c ∈ cs -> (f1 c h1).1 = (f2 c h2).1) ->
  (Note_get_text_content f1 title cs h1).1
  = (Note_get_text_content f2 title cs h2).1.
Proof.
  intros H1 H2 Hf. unfold Note_get_text_content, extend_text.
  apply (collect_rel f1 f2 (fun acc s => acc ++ [s]) (join " ")); auto.
Qed.

(** *** Depths at or below zero *)

Lemma render_nonpositive_outcome fuel h self indent :
  indent <= 0 -> (render fuel self indent h).1 = (render fuel self 0 h).1.
Proof.
  intros Hle. revert self. induction fuel as [|fuel IH]; intros self; [done|].
  rewrite !render_S.
  apply bind_rel; [apply read_only_deref..|done|].
  intros [text|text level|content|code language|content ty|title cs|title cs md];
    unfold ret, Heading_render, Subheading_render, Text_render,
      CodeBlock_render, Diagram_render; simpl;
    rewrite ?(mul_nonpositive "  " indent Hle), ?(mul_nonpositive "  " 0);
    try done.
  - unfold Section_render.
    rewrite (mul_nonpositive "  " indent Hle), (mul_nonpositive "  " 0) by done.
    apply (collect_rel (fun c => render fuel c indent) (fun c => render fuel c 0)
             (fun acc s => acc ++ [s]) (join ""));
      intros; try apply render_read_only; apply IH.
  - apply (collect_rel (fun c => render fuel c indent) (fun c => render fuel c 0)
             (fun acc s => (acc ++ [s]) ++ [nl]) (join ""));
      intros; try apply render_read_only; apply IH.
Qed.

(** X6.  A depth below zero is a depth of zero, as far as Python's string
    multiplication accepts it: on every store, for every node and under
    every recursion limit, [render(indent)] with [-2^63 <= indent <= 0]
    does what [render(0)] does.  (Below [-2^63] the multiplication
    raises [OverflowError].) *)
Theorem render_nonpositive_indent (h : heap) (self : ref) (indent : Z)
    (fuel : nat) :
  PY_SSIZE_T_MIN <= indent <= 0 ->
  render fuel self indent h = render fuel self 0 h.
Proof.
  intros [_ Hle]. apply read_only_eq; [apply render_read_only..|].
  by apply render_nonpositive_outcome.
Qed.

Lemma render_nonpositive_indent_witness :
  let h := [Note "N" [1%nat] []; Section "S" [2%nat]; Text "a"] in
  PY_SSIZE_T_MIN <= -3 <= 0 /\
  render 3 0 (-3) h
  = (Return ("# N" +:+ nl +:+ nl +:+ "## S" +:+ nl +:+ "a" +:+ nl +:+ nl), h).
Proof.
  intros h.
  assert (Hin : PY_SSIZE_T_MIN <= -3 <= 0) by (unfold PY_SSIZE_T_MIN; lia).
  split; [exact Hin|].
  rewrite (render_nonpositive_indent h 0%nat (-3) 3 Hin). reflexivity.
Defined.

(** *** Metadata and the text digest *)

Lemma get_text_content_metadata_outcome h self title cs md md' fuel r :
  h !! self = Some (Note title cs md) ->
  (get_text_content fuel r (<[self := Note title cs md']> h)).1
  = (get_text_content fuel r h).1.
Proof.
  intros Hself.
  assert (Hlt : (self < length h)%nat) by by eapply lookup_lt_Some.
  revert r. induction fuel as [|fuel IH]; intros r; [done|].
  rewrite !get_text_content_S.
  assert (Hnote : forall h1 h2 : heap,
             (forall c, (get_text_content fuel c h1).1
                        = (get_text_content fuel c h2).1) ->
             (Note_get_text_content (get_text_content fuel) title cs h1).1
             = (Note_get_text_content (get_text_content fuel) title cs h2).1).
  { intros h1 h2 Hc. apply Note_get_text_content_rel;
      intros; try apply get_text_content_read_only; apply Hc. }
  destruct (decide (r = self)) as [->|Hne].
  - rewrite (bind_return _ _ _ _ _
               (deref_lookup _ _ _ (heap_lookup_insert h self _ Hlt))).
    rewrite (bind_return _ _ _ _ _ (deref_lookup _ _ _ Hself)).
    by apply Hnote.
  - unfold bind, deref. rewrite heap_lookup_insert_ne by done.
    destruct (h !! r) as [o|]; [|done].
    destruct o as [ | | | | |title' cs'|title' cs' md'']; try done.
    + apply Section_get_text_content_rel;
        intros; try apply get_text_content_read_only; apply IH.
    + apply Note_get_text_content_rel;
        intros; try apply get_text_content_read_only; apply IH.
Qed.

(** X7.  Metadata is no part of the text digest: whatever node
    [get_text_content] is called on, under whatever recursion limit, it
    returns (or raises) after a [set_metadata] on a note what it returns
    (or raises) before. *)
Theorem set_metadata_keeps_text_content (h : heap) (self : ref)
    (title : string) (components : list ref) (metadata : dict)
    (key value : string) (r : ref) (fuel : nat) :
  h !! self = Some (Note title components metadata) ->
  ((set_metadata self key value ;;; get_text_content fuel r) h).1
  = (get_text_content fuel r h).1.
Proof.
  intros Hself.
  rewrite (bind_return _ _ _ _ _ (set_metadata_Note _ _ _ _ _ key value Hself)).
  by eapply get_text_content_metadata_outcome.
Qed.

Lemma set_metadata_keeps_text_content_witness :
  let h := [Note "N" [1; 2]%nat [("k", "v")]; Text "a"; Heading "b"] in
  h !! 0%nat = Some (Note "N" [1; 2]%nat [("k", "v")]) /\
  ((set_metadata 0 "k" "w" ;;; get_text_content 2 0) h).1 = Return "N a b".
Proof.
  intros h. split; [reflexivity|].
  rewrite (set_metadata_keeps_text_content h 0%nat "N" [1; 2]%nat [("k", "v")]
             "k" "w" 0%nat 2 eq_refl).
  reflexivity.
Defined.

(** *** Nodes that do not contain the container that changes *)

Lemma child_rtc_step h r o c r' :
  h !! r = Some o -> c ∈ children o -> rtc (child h) c r' -> rtc (child h) r r'.
Proof. intros Hr Hc Hrtc. eapply rtc_l; [|exact Hrtc]. exists o. by split. Qed.

Lemma render_frame_outcome h self o' indent fuel r :
  (forall r', rtc (child h) r r' -> r' <> self) ->
  (render fuel r indent (<[self := o']> h)).1 = (render fuel r indent h).1.
Proof.
  revert r. induction fuel as [|fuel IH]; intros r Hfar; [done|].
  rewrite !render_S. unfold bind, deref.
  rewrite heap_lookup_insert_ne by (apply not_eq_sym, Hfar, rtc_refl).
  destruct (h !! r) as [o|] eqn:Hr; [|done].
  destruct o as [ | | | | |title cs|title cs md]; try done.
  - apply Section_render_rel; intros; try apply render_read_only.
    apply IH. intros r' Hr'. apply Hfar. by eapply child_rtc_step.
  - apply Note_render_rel; intros; try apply render_read_only.
    apply IH. intros r' Hr'. apply Hfar. by eapply child_rtc_step.
Qed.

Lemma get_text_content_frame_outcome h self o' fuel r :
  (forall r', rtc (child h) r r' -> r' <> self) ->
  (get_text_content fuel r (<[self := o']> h)).1 = (get_text_content fuel r h).1.
Proof.
  revert r. induction fuel as [|fuel IH]; intros r Hfar; [done|].
  rewrite !get_text_content_S. unfold bind, deref.
  rewrite heap_lookup_insert_ne by (apply not_eq_sym, Hfar, rtc_refl).
  destruct (h !! r) as [o|] eqn:Hr; [|done].
  destruct o as [ | | | | |title cs|title cs md]; try done.
  - apply Section_get_text_content_rel; intros; try apply get_text_content_read_only.
    apply IH. intros r' Hr'. apply Hfar. by eapply child_rtc_step.
  - apply Note_get_text_content_rel; intros; try apply get_text_content_read_only.
    apply IH. intros r' Hr'. apply Hfar. by eapply child_rtc_step.
Qed.

(** What a mutation leaves behind: the store as it was (when it raised),
    or the store with another object at the address of the container. *)
Lemma mutation_store self m h :
  mutation self m -> (m h).2 = h \/ exists o', (m h).2 = <[self := o']> h.
Proof.
  intros [[c ->]|[[c ->]|(k & v & ->)]].
  - unfold add, bind, deref. destruct (h !! self) as [o|]; [|by left].
    destruct o; simpl; eauto.
  - unfold remove, bind, deref. destruct (h !! self) as [o|]; [|by left].
    destruct o as [ | | | | |title cs|title cs md]; simpl; eauto;
      destruct (list_remove c cs); simpl; eauto.
  - unfold set_metadata, bind, deref. destruct (h !! self) as [o|]; [|by left].
    destruct o; simpl; eauto.
Qed.

(** X8.  A change of a container ([add], [remove] or [set_metadata] on
    [self]) is invisible from every node that neither is the container
    nor has it among its descendants: [render] and [get_text_content] on
    such a node return (or raise) after the change what they return (or
    raise) before it. *)
Theorem mutation_frame (h : heap) (self : ref) (m : py ref) (r : ref)
    (indent : Z) (fuel : nat) :
  mutation self m ->
  (forall r', rtc (child h) r r' -> r' <> self) ->
  (render fuel r indent (m h).2).1 = (render fuel r indent h).1 /\
  (get_text_content fuel r (m h).2).1 = (get_text_content fuel r h).1.
Proof.
  intros Hm Hfar. destruct (mutation_store self m h Hm) as [->|[o' ->]]; [done|].
  split; [by apply render_frame_outcome|by apply get_text_content_frame_outcome].
Qed.

Lemma mutation_frame_witness :
  let h := [Section "S" [1%nat]; Text "a"; Section "U" [1; 3]%nat; Text "b"] in
  mutation 0 (add 0 3) /\
  (render 2 2 1 (add 0 3 h).2).1
  = Return ("  ## U" +:+ nl +:+ "  a" +:+ nl +:+ "  b" +:+ nl) /\
  (get_text_content 2 2 (add 0 3 h).2).1 = Return "U a b".
Proof.
  intros h.
  assert (Hm : mutation 0 (add 0 3)) by (left; by exists 3%nat).
  split; [exact Hm|].
  destruct (mutation_frame h 0%nat (add 0 3) 2%nat 1 2 Hm) as [Hr Hd].
  - intros r' Hreach ->.
    assert (Hinv : forall a b, rtc (child h) a b -> a <> 0%nat -> b <> 0%nat).
    { clear. intros a b Hab. induction Hab as [|a c b (o & Ha & Hc) _ IH]; [done|].
      intros Hne. apply IH.
      destruct a as [|[|[|[|a]]]]; simpl in Ha; simplify_eq/=.
      - by apply elem_of_nil in Hc.
      - apply list_elem_of_In in Hc. simpl in Hc.
        destruct Hc as [<-|[<-|[]]]; done.
      - by apply elem_of_nil in Hc. }
    by apply (Hinv _ _ Hreach).
  - split; [by rewrite Hr|by rewrite Hd].
Defined.

(** *** Cycles *)

Lemma get_text_content_Section_inv fuel h self title components s h' :
  h !! self = Some (Section title components) ->
  get_text_content (S fuel) self h = (Return s, h') ->
  h' = h /\
  exists outs,
    Forall2 (fun c s => get_text_content fuel c h = (Return s, h)) components outs /\
    s = join " " ((if truthy title then [title] else []) ++ outs).
Proof.
  intros Hself.
  rewrite get_text_content_S, (bind_return _ _ _ _ _ (deref_lookup _ _ _ Hself)).
  unfold Section_get_text_content, extend_text.
  intros (res & h1 & E & Er)%bind_inv.
  apply (for_each_collect_inv (get_text_content fuel) (fun acc s => acc ++ [s]))
    in E as (-> & outs & Hcs & ->); [|intros; apply get_text_content_read_only].
  unfold ret in Er. injection Er as <- <-. split; [done|].
  exists outs. split; [done|]. by rewrite fold_left_snoc.
Qed.

Lemma get_text_content_Note_inv fuel h self title components metadata s h' :
  h !! self = Some (Note title components metadata) ->
  get_text_content (S fuel) self h = (Return s, h') ->
  h' = h /\
  exists outs,
    Forall2 (fun c s => get_text_content fuel c h = (Return s, h)) components outs /\
    s = join " " (title :: outs).
Proof.
  intros Hself.
  rewrite get_text_content_S, (bind_return _ _ _ _ _ (deref_lookup _ _ _ Hself)).
  unfold Note_get_text_content, extend_text.
  intros (res & h1 & E & Er)%bind_inv.
  apply (for_each_collect_inv (get_text_content fuel) (fun acc s => acc ++ [s]))
    in E as (-> & outs & Hcs & ->); [|intros; apply get_text_content_read_only].
  unfold ret in Er. injection Er as <- <-. split; [done|].
  exists outs. split; [done|]. by rewrite fold_left_snoc.
Qed.

Lemma Forall2_elem_of_l {A B} (P : A -> B -> Prop) l k x :
  Forall2 P l k -> x ∈ l -> exists y, P x y.
Proof.
  intros Hall [i Hi]%list_elem_of_lookup.
  destruct (Forall2_lookup_l _ _ _ _ _ Hall Hi) as (y & _ & Hy). eauto.
Qed.

(** A call that returns has called every child, and every child has
    returned. *)
Lemma render_return_child fuel h self o indent s h' c :
  h !! self = Some o ->
  c ∈ children o ->
  render (S fuel) self indent h = (Return s, h') ->
  exists s', render fuel c indent h = (Return s', h).
Proof.
  intros Hself Hc E.
  destruct o as [ | | | | |title cs|title cs md];
    try by apply elem_of_nil in Hc.
  - destruct (render_Section_inv _ _ _ _ _ _ _ _ Hself E) as (_ & outs & Hcs & _).
    destruct (Forall2_elem_of_l _ _ _ _ Hcs Hc) as [y Hy]. by exists y.
  - destruct (render_Note_inv _ _ _ _ _ _ _ _ _ Hself E) as (_ & outs & Hcs & _).
    destruct (Forall2_elem_of_l _ _ _ _ Hcs Hc) as [y Hy]. by exists y.
Qed.

Lemma get_text_content_return_child fuel h self o s h' c :
  h !! self = Some o ->
  c ∈ children o ->
  get_text_content (S fuel) self h = (Return s, h') ->
  exists s', get_text_content fuel c h = (Return s', h).
Proof.
  intros Hself Hc E.
  destruct o as [ | | | | |title cs|title cs md];
    try by apply elem_of_nil in Hc.
  - destruct (get_text_content_Section_inv _ _ _ _ _ _ _ Hself E)
      as (_ & outs & Hcs & _).
    destruct (Forall2_elem_of_l _ _ _ _ Hcs Hc) as [y Hy]. by exists y.
  - destruct (get_text_content_Note_inv _ _ _ _ _ _ _ _ Hself E)
      as (_ & outs & Hcs & _).
    destruct (Forall2_elem_of_l _ _ _ _ Hcs Hc) as [y Hy]. by exists y.
Qed.

Lemma on_cycle_child h r :
  on_cycle h r -> exists c, child h r c /\ on_cycle h c.
Proof.
  unfold on_cycle. intros Hcyc.
  assert (exists c, child h r c /\ rtc (child h) c r) as (c & Hc & Hback).
  { inversion Hcyc as [? ? Hc|? c ? Hc Htc]; subst.
    - exists r. by split.
    - exists c. split; [done|]. by apply tc_rtc. }
  exists c. split; [done|]. eapply tc_rtc_l; [exact Hback|]. by apply tc_once.
Qed.

Lemma render_cycle_no_return h indent fuel r s h' :
  on_cycle h r -> render fuel r indent h <> (Return s, h').
Proof.
  revert r s h'. induction fuel as [|fuel IH]; intros r s h' Hcyc E; [done|].
  destruct (on_cycle_child _ _ Hcyc) as (c & (o & Hr & Hc) & Hcyc').
  destruct (render_return_child _ _ _ _ _ _ _ _ Hr Hc E) as [s' E'].
  by apply (IH _ _ _ Hcyc' E').
Qed.

Lemma get_text_content_cycle_no_return h fuel r s h' :
  on_cycle h r -> get_text_content fuel r h <> (Return s, h').
Proof.
  revert r s h'. induction fuel as [|fuel IH]; intros r s h' Hcyc E; [done|].
  destruct (on_cycle_child _ _ Hcyc) as (c & (o & Hr & Hc) & Hcyc').
  destruct (get_text_content_return_child _ _ _ _ _ _ _ Hr Hc E) as [s' E'].
  by apply (IH _ _ _ Hcyc' E').
Qed.






(** *** The digest of a composite, from those of its children *)

Lemma get_text_content_fuel_S fuel self h s h' :
  get_text_content fuel self h = (Return s, h') ->
  get_text_content (S fuel) self h = (Return s, h').
Proof.
  revert self h s h'.
  induction fuel as [|fuel IH]; intros self h s h'; [done|].
  rewrite (get_text_content_S (S fuel)), (get_text_content_S fuel).
  intros (o & h1 & Ed & E)%bind_inv. rewrite (bind_return _ _ _ _ _ Ed).
  destruct o as [ | | | | | title cs | title cs md]; try done.
  - apply bind_inv in E as (res & h2 & E & Er).
    unfold Section_get_text_content, extend_text.
    erewrite bind_return; [exact Er|].
    revert E. apply for_each_mono. clear -IH. intros c acc h res h'.
    intros (s & h1 & E & Er)%bind_inv.
    by rewrite (bind_return _ _ _ _ _ (IH _ _ _ _ E)).
  - apply bind_inv in E as (res & h2 & E & Er).
    unfold Note_get_text_content, extend_text.
    erewrite bind_return; [exact Er|].
    revert E. apply for_each_mono. clear -IH. intros c acc h res h'.
    intros (s & h1 & E & Er)%bind_inv.
    by rewrite (bind_return _ _ _ _ _ (IH _ _ _ _ E)).
Qed.

Lemma get_text_content_fuel_mono n m self h s h' :
  (n <= m)%nat ->
  get_text_content n self h = (Return s, h') ->
  get_text_content m self h = (Return s, h').
Proof.
  induction 1 as [|m _ IH]; [done|]. intros E.
  by apply get_text_content_fuel_S, IH.
Qed.

Lemma digests_common_fuel h cs outs :
  Forall2 (fun c s => digests h c s) cs outs ->
  exists fuel,
    Forall2 (fun c s => get_text_content fuel c h = (Return s, h)) cs outs.
Proof.
  induction 1 as [|c s cs outs [n Hc] _ [m IH]].
  - exists 0%nat. constructor.
  - exists (n `max` m)%nat. constructor.
    + eapply get_text_content_fuel_mono; [|exact Hc]. lia.
    + eapply Forall2_impl; [exact IH|]. simpl. intros c' s' E.
      eapply get_text_content_fuel_mono; [|exact E]. lia.
Qed.

Lemma digests_composite h self o components outs :
  h !! self = Some o ->
  components_of o = Some components ->
  Forall2 (fun c s => digests h c s) components outs ->
  digests h self (join " " (own_parts o ++ outs)).
Proof.
  intros Hself Ho [fuel Hcs]%digests_common_fuel. exists (S fuel).
  destruct o as [ | | | | | title cs | title cs md]; simplify_eq/=.
  - by eapply get_text_content_Section.
  - by eapply get_text_content_Note.
Qed.

Lemma digests_composite_inv h self o components s :
  h !! self = Some o ->
  components_of o = Some components ->
  digests h self s ->
  exists outs,
    Forall2 (fun c s => digests h c s) components outs /\
    s = join " " (own_parts o ++ outs).
Proof.
  intros Hself Ho [[|fuel] E]; [done|].
  destruct o as [ | | | | | title cs | title cs md]; simplify_eq/=.
  - destruct (get_text_content_Section_inv _ _ _ _ _ _ _ Hself E)
      as (_ & outs & Hcs & ->).
    exists outs. split; [|done].
    eapply Forall2_impl; [exact Hcs|]. intros c out Hc. by exists fuel.
  - destruct (get_text_content_Note_inv _ _ _ _ _ _ _ _ Hself E)
      as (_ & outs & Hcs & ->).
    exists outs. split; [|done].
    eapply Forall2_impl; [exact Hcs|]. intros c out Hc. by exists fuel.
Qed.

(** X10.  The text digest of a [Section] is its title, left out when
    empty, and the digests of its children in insertion order, joined by
    single spaces: the section has the digest [s] exactly when its
    children have digests [outs] and [s] is that join.  A child with an
    empty digest still takes its place between two spaces. *)
Theorem section_text_content_joins_children (h : heap) (self : ref)
    (title : string) (components : list ref) (s : string) :
  h !! self = Some (Section title components) ->
  digests h self s <->
  exists outs,
    Forall2 (fun c out => digests h c out) components outs /\
    s = String.concat " " ((if truthy title then [title] else []) ++ outs).
Proof.
  intros Hself. split.
  - intros Hs. by apply (digests_composite_inv _ _ _ _ _ Hself eq_refl Hs).
  - intros (outs & Hcs & ->).
    by apply (digests_composite _ _ _ _ _ Hself eq_refl Hcs).
Qed.

Lemma section_text_content_joins_children_witness :
  let h := [Section "S" [1; 2; 3]%nat; Text "a"; Section "" []; Text "b"] in
  h !! 0%nat = Some (Section "S" [1; 2; 3]%nat) /\
  digests h 0 "S a  b".
Proof.
  intros h. split; [reflexivity|].
  apply (proj2 (section_text_content_joins_children h 0%nat "S" [1; 2; 3]%nat
                  _ eq_refl)).
  exists ["a"; ""; "b"]. split; [|reflexivity].
  constructor; [|constructor; [|constructor; [|constructor]]];
    exists 1%nat; reflexivity.
Defined.

(** X11.  The text digest of a [Note] is its title, always, and the
    digests of its children in insertion order, joined by single spaces;
    the metadata has no part in it. *)
Theorem note_text_content_joins_children (h : heap) (self : ref)
    (title : string) (components : list ref) (metadata : dict) (s : string) :
  h !! self = Some (Note title components metadata) ->
  digests h self s <->
  exists outs,
    Forall2 (fun c out => digests h c out) components outs /\
    s = String.concat " " (title :: outs).
Proof.
  intros Hself. split.
  - intros Hs. by apply (digests_composite_inv _ _ _ _ _ Hself eq_refl Hs).
  - intros (outs & Hcs & ->).
    by apply (digests_composite _ _ _ _ _ Hself eq_refl Hcs).
Qed.

Lemma note_text_content_joins_children_witness :
  let h := [Note "" [1; 2]%nat [("k", "v")]; CodeBlock "x=1" "py";
            Section "S" [1%nat]] in
  h !! 0%nat = Some (Note "" [1; 2]%nat [("k", "v")]) /\
  digests h 0 " x=1 S x=1".
Proof.
  intros h. split; [reflexivity|].
  apply (proj2 (note_text_content_joins_children h 0%nat "" [1; 2]%nat
                  [("k", "v")] _ eq_refl)).
  exists ["x=1"; "S x=1"]. split; [|reflexivity].
  constructor; [|constructor; [|constructor]].
  - exists 1%nat. reflexivity.
  - exists 2%nat. reflexivity.
Defined.

(** X12.  A [Note] renders to [s] exactly when its children, each
    rendered at the depth the note was given and taken in insertion
    order, return strings [outs] and [s] is the title line with a blank
    line, the metadata block when there is metadata, and then every
    string of [outs] followed by one line feed.  The title line and the
    metadata are never indented. *)
Theorem note_render_children_spaced (h : heap) (self : ref) (title : string)
    (components : list ref) (metadata : dict) (indent : Z) (s : string) :
  h !! self = Some (Note title components metadata) ->
  renders h self indent s <->
  exists outs,
    Forall2 (fun c out => renders h c indent out) components outs /\
    s = "# " +:+ title +:+ nl +:+ nl +:+
        match metadata with
        | [] => ""
        | _ :: _ =>
            "---" +:+ nl +:+
            String.concat ""
              (map (fun '(k, v) => k +:+ ": " +:+ v +:+ nl) metadata) +:+
            "---" +:+ nl +:+ nl
        end +:+
        String.concat "" (map (fun out => out +:+ nl) outs).
Proof.
  intros Hself.
  assert (Hhead : forall outs,
             note_head title metadata +:+ unlines outs
             = "# " +:+ title +:+ nl +:+ nl +:+
               match metadata with
               | [] => ""
               | _ :: _ =>
                   "---" +:+ nl +:+
                   String.concat ""
                     (map (fun '(k, v) => k +:+ ": " +:+ v +:+ nl) metadata) +:+
                   "---" +:+ nl +:+ nl
               end +:+
               String.concat "" (map (fun out => out +:+ nl) outs)).
  { intros outs. unfold note_head, metadata_block. rewrite !str_app_assoc.
    do 4 f_equal. destruct metadata as [|kv md]; [done|].
    rewrite !unlines_app, !unlines_cons, unlines_nil, !str_app_assoc.
    rewrite !str_app_nil_l. do 2 f_equal.
    assert (Hmd : forall d : dict,
               unlines (metadata_lines d)
               = String.concat "" (map (fun '(k, v) => k +:+ ": " +:+ v +:+ nl) d)).
    { clear. intros d. unfold unlines, metadata_lines. rewrite map_map.
      f_equal. apply map_ext. intros [k v]. by rewrite !str_app_assoc. }
    by rewrite Hmd. }
  split.
  - intros [[|fuel] E]; [done|].
    destruct (render_Note_inv _ _ _ _ _ _ _ _ _ Hself E) as (_ & outs & Hcs & ->).
    exists outs. split; [|apply Hhead].
    eapply Forall2_impl; [exact Hcs|]. intros c out Hc. by exists fuel.
  - intros (outs & Hcs & ->). rewrite <- Hhead. by eapply renders_Note.
Qed.

Lemma note_render_children_spaced_witness :
  let h := [Note "N" [1; 2]%nat []; Heading "H"; Text "t"] in
  h !! 0%nat = Some (Note "N" [1; 2]%nat []) /\
  renders h 0 1
    ("# N" +:+ nl +:+ nl +:+ "  # H" +:+ nl +:+ nl +:+ "  t" +:+ nl +:+ nl).
Proof.
  intros h. split; [reflexivity|].
  apply (proj2 (note_render_children_spaced h 0%nat "N" [1; 2]%nat [] 1
                  _ eq_refl)).
  exists ["  # H" +:+ nl; "  t" +:+ nl]. split; [|reflexivity].
  constructor; [|constructor; [|constructor]]; exists 1%nat; reflexivity.
Defined.

(** *** What [add] does to the output *)

Lemma Forall2_impl_elem {A B} (P Q : A -> B -> Prop) l k :
  Forall2 P l k -> (forall x y, x ∈ l -> P x y -> Q x y) -> Forall2 Q l k.
Proof.
  induction 1 as [|x y l k Hxy _ IH]; intros HPQ; constructor.
  - apply HPQ; [by left|done].
  - apply IH. intros x' y' Hx'. apply HPQ. by right.
Qed.

Lemma renders_frame h self o' r indent s :
  (forall r', rtc (child h) r r' -> r' <> self) ->
  renders h r indent s -> renders (<[self := o']> h) r indent s.
Proof.
  intros Hfar [fuel E]. exists fuel.
  rewrite read_only_run by apply render_read_only.
  by rewrite render_frame_outcome, E.
Qed.

Lemma digests_frame h self o' r s :
  (forall r', rtc (child h) r r' -> r' <> self) ->
  digests h r s -> digests (<[self := o']> h) r s.
Proof.
  intros Hfar [fuel E]. exists fuel.
  rewrite read_only_run by apply get_text_content_read_only.
  by rewrite get_text_content_frame_outcome, E.
Qed.

(** The children of a node that is on no cycle do not reach it. *)
Lemma child_far h self o x :
  ~ on_cycle h self ->
  h !! self = Some o ->
  x ∈ children o ->
  forall r', rtc (child h) x r' -> r' <> self.
Proof.
  intros Hnc Hself Hx r' Hr ->. apply Hnc.
  eapply tc_rtc_r; [|exact Hr]. apply tc_once. exists o. by split.
Qed.

(** X13.  [add] appends to the output.  When a [Section] or a [Note]
    renders to [s] and a node that does not contain it renders to [out],
    then after [add] of that node the container renders to [s] followed
    by [out], and for a [Note] by one more line feed. *)
Theorem add_appends_to_render (h : heap) (self : ref) (o : obj)
    (components : list ref) (component : ref) (indent : Z) (s out : string) :
  h !! self = Some o ->
  components_of o = Some components ->
  ~ rtc (child h) component self ->
  renders h self indent s ->
  renders h component indent out ->
  renders (add self component h).2 self indent
    (s +:+ out +:+ (if is_Section o then "" else nl)).
Proof.
  intros Hself Ho Hfar Hs Hout.
  assert (Hlt : (self < length h)%nat) by by eapply lookup_lt_Some.
  assert (Hnc : ~ on_cycle h self).
  { intros Hcyc. destruct Hs as [fuel E].
    by apply render_cycle_no_return in E. }
  rewrite (add_composite _ _ _ _ component Hself Ho). simpl.
  set (o' := with_components o (components ++ [component])).
  assert (Hself' : <[self := o']> h !! self = Some o')
    by by apply heap_lookup_insert.
  assert (Hout' : renders (<[self := o']> h) component indent out).
  { apply renders_frame; [|done]. intros r' Hr ->. by apply Hfar. }
  assert (Hframe : forall outs,
             Forall2 (fun c s => renders h c indent s) components outs ->
             Forall2 (fun c s => renders (<[self := o']> h) c indent s)
                     (components ++ [component]) (outs ++ [out])).
  { intros outs Hcs. apply Forall2_app; [|by repeat constructor].
    eapply Forall2_impl_elem; [exact Hcs|]. intros x y Hx [fuel E].
    apply renders_frame; [|by exists fuel].
    eapply child_far; [done..|]. unfold children. by rewrite Ho. }
  destruct Hs as [[|fuel] E]; [done|].
  destruct o as [ | | | | | title cs | title cs md]; simplify_eq/=.
  - destruct (render_Section_inv _ _ _ _ _ _ _ _ Hself E) as (_ & outs & Hcs & ->).
    assert (Hcs' : Forall2 (fun c s => renders h c indent s) components outs).
    { eapply Forall2_impl; [exact Hcs|]. intros c y Hc. by exists fuel. }
    pose proof (renders_Section _ _ _ _ indent _ Hself' (Hframe _ Hcs')) as Hr.
    rewrite join_empty_app, join_empty_cons in Hr.
    rewrite str_app_assoc. exact Hr.
  - destruct (render_Note_inv _ _ _ _ _ _ _ _ _ Hself E) as (_ & outs & Hcs & ->).
    assert (Hcs' : Forall2 (fun c s => renders h c indent s) components outs).
    { eapply Forall2_impl; [exact Hcs|]. intros c y Hc. by exists fuel. }
    pose proof (renders_Note _ _ _ _ _ indent _ Hself' (Hframe _ Hcs')) as Hr.
    rewrite unlines_app, unlines_cons, unlines_nil, str_app_nil_r in Hr.
    rewrite str_app_assoc. exact Hr.
Qed.

Lemma add_appends_to_render_witness :
  let h := [Note "N" [1%nat] []; Text "a"; Section "S" [1%nat]] in
  h !! 0%nat = Some (Note "N" [1%nat] []) /\
  renders (add 0 2 h).2 0 0
    (("# N" +:+ nl +:+ nl +:+ "a" +:+ nl +:+ nl) +:+
     ("## S" +:+ nl +:+ "a" +:+ nl) +:+ nl).
Proof.
  intros h. split; [reflexivity|].
  apply (add_appends_to_render h 0%nat (Note "N" [1%nat] []) [1%nat] 2%nat 0
           ("# N" +:+ nl +:+ nl +:+ "a" +:+ nl +:+ nl)
           ("## S" +:+ nl +:+ "a" +:+ nl) eq_refl eq_refl).
  - intros Hreach.
    assert (Hinv : forall a b, rtc (child h) a b -> a <> 0%nat -> b <> 0%nat).
    { clear. intros a b Hab. induction Hab as [|a c b (o & Ha & Hc) _ IH]; [done|].
      intros Hne. apply IH.
      destruct a as [|[|[|a]]]; simpl in Ha; simplify_eq/=.
      - by apply elem_of_nil in Hc.
      - apply list_elem_of_In in Hc. simpl in Hc.
        destruct Hc as [<-|[]]; done. }
    by apply (Hinv _ _ Hreach).
  - exists 2%nat. reflexivity.
  - exists 2%nat. reflexivity.
Defined.

Lemma join_space_snoc (parts : list string) out :
  join " " (parts ++ [out])
  = match parts with
    | [] => out
    | _ :: _ => join " " parts +:+ " " +:+ out
    end.
Proof.
  destruct parts as [|p parts]; [done|]. by apply join_snoc_nonempty.
Qed.

(** X14.  [add] appends to the text digest.  When a [Section] or a [Note]
    has the digest [s] and a node that does not contain it has the digest
    [out], then after [add] of that node the container has the digest
    [s], a space and [out]; only a section with neither title nor
    children, whose digest was empty, gets [out] alone. *)
Theorem add_appends_to_text_content (h : heap) (self : ref) (o : obj)
    (components : list ref) (component : ref) (s out : string) :
  h !! self = Some o ->
  components_of o = Some components ->
  ~ rtc (child h) component self ->
  digests h self s ->
  digests h component out ->
  digests (add self component h).2 self
    (match own_parts o, components with
     | [], [] => out
     | _, _ => s +:+ " " +:+ out
     end).
Proof.
  intros Hself Ho Hfar Hs Hout.
  assert (Hlt : (self < length h)%nat) by by eapply lookup_lt_Some.
  assert (Hnc : ~ on_cycle h self).
  { intros Hcyc. destruct Hs as [fuel E].
    by apply get_text_content_cycle_no_return in E. }
  rewrite (add_composite _ _ _ _ component Hself Ho). simpl.
  set (o' := with_components o (components ++ [component])).
  assert (Hself' : <[self := o']> h !! self = Some o')
    by by apply heap_lookup_insert.
  assert (Ho' : components_of o' = Some (components ++ [component]))
    by by eapply components_of_with_components.
  assert (Hparts : own_parts o' = own_parts o) by by destruct o.
  destruct (digests_composite_inv _ _ _ _ _ Hself Ho Hs) as (outs & Hcs & ->).
  assert (Hcs' : Forall2 (fun c s => digests (<[self := o']> h) c s)
                   (components ++ [component]) (outs ++ [out])).
  { apply Forall2_app.
    - eapply Forall2_impl_elem; [exact Hcs|]. intros x y Hx Hy.
      apply digests_frame; [|done].
      eapply child_far; [done..|]. unfold children. by rewrite Ho.
    - repeat constructor. apply digests_frame; [|done].
      intros r' Hr ->. by apply Hfar. }
  pose proof (digests_composite _ _ _ _ _ Hself' Ho' Hcs') as Hd.
  rewrite Hparts, (assoc_L (++)), join_space_snoc in Hd.
  destruct (own_parts o) as [|p ps] eqn:Ep.
  - pose proof (Forall2_length _ _ _ Hcs) as Hlen.
    destruct components as [|c cs], outs as [|y outs]; simplify_eq/=; done.
  - exact Hd.
Qed.

Lemma add_appends_to_text_content_witness :
  let h := [Section "" []; Text "a"; Section "S" [1%nat]] in
  h !! 0%nat = Some (Section "" []) /\
  digests (add 0 1 h).2 0 "a" /\
  digests (add 2 1 h).2 2 "S a a".
Proof.
  intros h. split; [reflexivity|]. split.
  - apply (add_appends_to_text_content h 0%nat (Section "" []) [] 1%nat "" "a"
             eq_refl eq_refl).
    + intros Hreach. inversion Hreach as [|? c ? (o & Ha & Hc)]; subst.
      simpl in Ha. simplify_eq/=. by apply elem_of_nil in Hc.
    + exists 1%nat. reflexivity.
    + exists 1%nat. reflexivity.
  - apply (add_appends_to_text_content h 2%nat (Section "S" [1%nat]) [1%nat]
             1%nat "S a" "a" eq_refl eq_refl).
    + intros Hreach. inversion Hreach as [|? c ? (o & Ha & Hc)]; subst.
      simpl in Ha. simplify_eq/=. by apply elem_of_nil in Hc.
    + exists 2%nat. reflexivity.
    + exists 1%nat. reflexivity.
Defined.

(** *** The end of the output *)

Lemma endswith_nl_cons c s : s <> "" -> endswith_nl (String c s) = endswith_nl s.
Proof. by destruct s. Qed.

Lemma endswith_nl_nonempty s : endswith_nl s = true -> s <> "".
Proof. by destruct s. Qed.

Lemma str_app_nonempty_r s t : t <> "" -> s +:+ t <> "".
Proof. destruct s; [done|]. by rewrite str_app_cons. Qed.

Lemma endswith_nl_app s t : endswith_nl t = true -> endswith_nl (s +:+ t) = true.
Proof.
  intros Ht. induction s as [|c s IH]; [done|].
  rewrite str_app_cons, endswith_nl_cons; [done|].
  by apply str_app_nonempty_r, endswith_nl_nonempty.
Qed.

Lemma endswith_nl_nl : endswith_nl nl = true.
Proof. reflexivity. Qed.

Lemma endswith_nl_app_nl s : endswith_nl (s +:+ nl) = true.
Proof. apply endswith_nl_app, endswith_nl_nl. Qed.

Lemma closed_app s t :
  (s = "" \/ endswith_nl s = true) ->
  (t = "" \/ endswith_nl t = true) ->
  s +:+ t = "" \/ endswith_nl (s +:+ t) = true.
Proof.
  intros Hs [->|Ht].
  - by rewrite str_app_nil_r.
  - right. by apply endswith_nl_app.
Qed.

Lemma closed_join outs :
  Forall (fun out => out = "" \/ endswith_nl out = true) outs ->
  join "" outs = "" \/ endswith_nl (join "" outs) = true.
Proof.
  induction 1 as [|out outs Hout _ IH]; [by left|].
  rewrite join_empty_cons. by apply closed_app.
Qed.

Lemma endswith_nl_unlines l ls : endswith_nl (unlines (l :: ls)) = true.
Proof.
  revert l. induction ls as [|l' ls IH]; intros l; rewrite unlines_cons.
  - rewrite unlines_nil, str_app_nil_r. apply endswith_nl_app_nl.
  - rewrite <- str_app_assoc. apply endswith_nl_app, IH.
Qed.

Lemma endswith_nl_note_head title metadata :
  endswith_nl (note_head title metadata) = true.
Proof.
  unfold note_head, metadata_block. destruct metadata as [|kv md].
  - rewrite str_app_nil_r, <- !str_app_assoc. apply endswith_nl_app_nl.
  - rewrite <- !str_app_assoc. apply endswith_nl_app. simpl app.
    apply endswith_nl_unlines.
Qed.

Lemma render_closed fuel h indent self o s h' :
  h !! self = Some o ->
  render fuel self indent h = (Return s, h') ->
  (is_Section o = false -> endswith_nl s = true) /\
  (s = "" \/ endswith_nl s = true).
Proof.
  revert self o s h'. induction fuel as [|fuel IH]; intros self o s h' Hself; [done|].
  intros E. pose proof E as E'. revert E'.
  rewrite render_S, (bind_return _ _ _ _ _ (deref_lookup _ _ _ Hself)).
  assert (Hchildren : forall cs outs,
             Forall2 (fun c s => render fuel c indent h = (Return s, h)) cs outs ->
             Forall (fun out => out = "" \/ endswith_nl out = true) outs).
  { intros cs outs Hcs. induction Hcs as [|c out cs outs Hc _ IHcs]; constructor;
      [|done].
    destruct (h !! c) as [oc|] eqn:Hoc.
    - by destruct (IH _ _ _ _ Hoc Hc).
    - destruct fuel as [|fuel']; [done|]. revert Hc.
      rewrite render_S. unfold bind, deref. by rewrite Hoc. }
  destruct o as [text|text level|content|code language|content ty
                |title cs|title cs md];
    try (intros [= <- _];
         assert (Hend : forall s0 : string,
                    endswith_nl (s0 +:+ nl) = true) by apply endswith_nl_app_nl;
         unfold Heading_render, Subheading_render, Text_render,
           CodeBlock_render, Diagram_render;
         rewrite <- ?str_app_assoc; by split; [|right]).
  - intros _.
    destruct (render_Section_inv _ _ _ _ _ _ _ _ Hself E) as (_ & outs & Hcs & ->).
    split; [done|]. apply closed_app; [|by eapply closed_join, Hchildren].
    unfold section_title_line. destruct (truthy title); [right|by left].
    rewrite <- !str_app_assoc. apply endswith_nl_app_nl.
  - intros _.
    destruct (render_Note_inv _ _ _ _ _ _ _ _ _ Hself E) as (_ & outs & Hcs & ->).
    assert (Hend : endswith_nl (note_head title md +:+ unlines outs) = true).
    { destruct outs as [|out outs].
      - rewrite unlines_nil, str_app_nil_r. apply endswith_nl_note_head.
      - apply endswith_nl_app, endswith_nl_unlines. }
    by split; [|right].
Qed.

(** X15.  What [render] returns is closed by a line feed: for every leaf
    and every [Note] the output ends with a line feed, and for a
    [Section] it ends with a line feed or is empty. *)
Theorem render_ends_with_line_feed (h : heap) (self : ref) (o : obj)
    (indent : Z) (fuel : nat) (s : string) (h' : heap) :
  h !! self = Some o ->
  render fuel self indent h = (Return s, h') ->
  (is_Section o = false -> endswith_nl s = true) /\
  (s = "" \/ endswith_nl s = true).
Proof. apply render_closed. Qed.

Lemma render_ends_with_line_feed_witness :
  let h := [Section "" [1; 2]%nat; Section "" []; Text ("a" +:+ nl +:+ "b")] in
  h !! 0%nat = Some (Section "" [1; 2]%nat) /\
  render 2 0 1 h = (Return ("  a" +:+ nl +:+ "  b" +:+ nl), h) /\
  ("  a" +:+ nl +:+ "  b" +:+ nl = "" \/
   endswith_nl ("  a" +:+ nl +:+ "  b" +:+ nl) = true).
Proof.
  intros h. split; [reflexivity|]. split; [reflexivity|].
  apply (render_ends_with_line_feed h 0%nat (Section "" [1; 2]%nat) 1 2
           ("  a" +:+ nl +:+ "  b" +:+ nl) h eq_refl eq_refl).
Defined.

(** *** Fences and markers *)

Lemma wrapped_lines indent (first last : string) (body : string) :
  one_line first = true ->
  one_line last = true ->
  lines (unlines (map (fun line => mul "  " indent +:+ line)
                    (first :: split_nl body ++ [last])))
  = (mul "  " indent +:+ first)
      :: map (fun line => mul "  " indent +:+ line) (split_nl body)
      ++ [mul "  " indent +:+ last].
Proof.
  intros Hfirst Hlast. rewrite lines_unlines.
  - by rewrite map_cons, map_app.
  - eapply Forall_impl; [apply prefixed_bodies_ok|by intros l [Hl _]].
    constructor; [done|]. apply Forall_app. split; [apply split_nl_one_line|].
    by repeat constructor.
Qed.

(** X16.  At every depth the code of a [CodeBlock] stands between its
    fences and the content of a [Diagram] between its markers: when the
    language (the diagram type) holds no line feed, the first line of the
    output is the opening fence with the language (the opening marker
    with the type), the last line is the closing fence (the closing
    marker), and the lines in between are the lines of the code (of the
    content), in order, each after the indentation. *)
Theorem block_render_lines (content other : string) (indent : Z) :
  one_line other = true ->
  lines (CodeBlock_render content other indent)
  = (mul "  " indent +:+ "```" +:+ other)
      :: map (fun line => mul "  " indent +:+ line) (split_nl content)
      ++ [mul "  " indent +:+ "```"] /\
  lines (Diagram_render content other indent)
  = (mul "  " indent +:+ "[Diagram: " +:+ other +:+ "]")
      :: map (fun line => mul "  " indent +:+ line) (split_nl content)
      ++ [mul "  " indent +:+ "[End Diagram]"].
Proof.
  intros Hother. split.
  - rewrite CodeBlock_render_lines. apply wrapped_lines; [|done].
    by rewrite one_line_app, Hother.
  - rewrite Diagram_render_lines. apply wrapped_lines; [|done].
    by rewrite !one_line_app, Hother.
Qed.

Lemma block_render_lines_witness :
  one_line "py" = true /\
  lines (CodeBlock_render ("x" +:+ nl +:+ nl +:+ "y") "py" 1)
  = ["  ```py"; "  x"; "  "; "  y"; "  ```"].
Proof.
  split; [reflexivity|].
  destruct (block_render_lines ("x" +:+ nl +:+ nl +:+ "y") "py" 1 eq_refl)
    as [Hcode _].
  rewrite Hcode. reflexivity.
Defined.

(** *** The recursion limit *)

(** X17.  What a call returns does not depend on the recursion limit:
    a string that [render] or [get_text_content] returns under one limit
    is what it returns under every larger limit. *)
Theorem result_independent_of_recursion_limit (h : heap) (self : ref)
    (indent : Z) (n m : nat) :
  (n <= m)%nat ->
  (forall s h', render n self indent h = (Return s, h') ->
                render m self indent h = (Return s, h')) /\
  (forall s h', get_text_content n self h = (Return s, h') ->
                get_text_content m self h = (Return s, h')).
Proof.
  intros Hle. split; intros s h'.
  - by apply render_fuel_mono.
  - by apply get_text_content_fuel_mono.
Qed.

Lemma result_independent_of_recursion_limit_witness :
  let h := [Section "S" [1%nat]; Text "a"] in
  (2 <= 1000)%nat /\
  render 1000 0 0 h = (Return ("## S" +:+ nl +:+ "a" +:+ nl), h) /\
  get_text_content 1000 0 h = (Return "S a", h).
Proof.
  intros h.
  assert (Hle : (2 <= 1000)%nat) by lia.
  destruct (result_independent_of_recursion_limit h 0%nat 0 2 1000 Hle)
    as [Hr Hd].
  split; [exact Hle|]. split; [by apply Hr|by apply Hd].
Defined.

(** ** Indentation, line by line *)

Lemma unlines_split_nl s : unlines (split_nl s) = s +:+ nl.
Proof.
  rewrite <- join_nl_unlines by apply split_nl_nonempty.
  by rewrite join_split_nl.
Qed.

Lemma unlines_concat_split_nl (xs : list string) :
  unlines (concat (map split_nl xs)) = unlines xs.
Proof.
  induction xs as [|x xs IH]; [done|]. simpl.
  by rewrite unlines_app, unlines_split_nl, IH, unlines_cons, str_app_assoc.
Qed.

Lemma place_after_indent prefix (ls : list string) :
  map (place prefix) (after_indent ls) = map (fun line => prefix +:+ line) ls.
Proof. unfold after_indent. rewrite map_map. by apply map_ext. Qed.

Lemma place_at_margin prefix (ls : list string) :
  map (place prefix) (at_margin ls) = ls.
Proof.
  unfold at_margin. rewrite map_map. induction ls as [|l ls IH]; [done|].
  simpl. by rewrite IH.
Qed.

Lemma metadata_lines_split (metadata : dict) :
  concat (map (fun '(key, value) => split_nl (key +:+ ": " +:+ value)) metadata)
  = concat (map split_nl (metadata_lines metadata)).
Proof.
  unfold metadata_lines. rewrite map_map. f_equal. apply map_ext. by intros [k v].
Qed.

(** The own lines of a note, read as a string. *)
Lemma note_head_layout title metadata prefix :
  note_head title metadata
  = unlines
      (map (place prefix)
         (at_margin
            (split_nl ("# " +:+ title) ++ [""] ++
             match metadata with
             | [] => []
             | _ :: _ =>
                 ["---"] ++
                 concat (map (fun '(key, value) =>
                                split_nl (key +:+ ": " +:+ value)) metadata) ++
                 ["---"; ""]
             end))).
Proof.
  rewrite place_at_margin, unlines_app, unlines_split_nl, unlines_app.
  unfold note_head, metadata_block. rewrite !str_app_assoc. do 3 f_equal.
  rewrite unlines_cons, unlines_nil, str_app_nil_l.
  destruct metadata as [|kv md]; [done|].
  rewrite metadata_lines_split.
  rewrite !unlines_app, unlines_concat_split_nl. by rewrite str_app_assoc.
Qed.

(** The outputs of the children, one after the other, read as lines. *)
Lemma join_children_layout prefix (rest : list (list (bool * string))) :
  join "" (map (fun ls => unlines (map (place prefix) ls)) rest)
  = unlines (map (place prefix) (concat rest)).
Proof.
  induction rest as [|ls rest IH]; [done|].
  rewrite map_cons, concat_cons, join_empty_cons, IH.
  by rewrite map_app, unlines_app.
Qed.

Lemma unlines_children_layout prefix (rest : list (list (bool * string))) :
  unlines (map (fun ls => unlines (map (place prefix) ls)) rest)
  = unlines (map (place prefix)
               (concat (map (fun ls => ls ++ at_margin [""]) rest))).
Proof.
  induction rest as [|ls rest IH]; [done|].
  rewrite !map_cons, concat_cons, unlines_cons, IH.
  rewrite !map_app, !unlines_app, place_at_margin.
  rewrite unlines_cons, unlines_nil. by rewrite !str_app_assoc.
Qed.

(** [render] writes the layout, every indented line after the
    indentation of the call. *)
Lemma render_spec_layout fuel h indent self ls :
  spec_layout fuel h self = Some ls ->
  render fuel self indent h
  = (Return (unlines (map (place (mul "  " indent)) ls)), h).
Proof.
  revert self ls. induction fuel as [|fuel IH]; intros self ls; [done|].
  cbn [spec_layout]. destruct (h !! self) as [o|] eqn:Hself; [|done].
  assert (Hchildren : forall cs rest,
             mapM (spec_layout fuel h) cs = Some rest ->
             Forall2 (fun c s => render fuel c indent h = (Return s, h)) cs
               (map (fun ls => unlines (map (place (mul "  " indent)) ls)) rest)).
  { intros cs rest Hrest%mapM_Some_1. apply Forall2_fmap_r.
    eapply Forall2_impl; [exact Hrest|]. intros c ls' Hc. by apply IH. }
  destruct o as [text|text level|content|code language|content ty
                |title cs|title cs md].
  - intros [= <-]. rewrite render_S, (bind_return _ _ _ _ _ (deref_lookup _ _ _ Hself)).
    by rewrite Heading_render_lines, <- place_after_indent.
  - intros [= <-]. rewrite render_S, (bind_return _ _ _ _ _ (deref_lookup _ _ _ Hself)).
    by rewrite Subheading_render_lines, <- place_after_indent.
  - intros [= <-]. rewrite render_S, (bind_return _ _ _ _ _ (deref_lookup _ _ _ Hself)).
    by rewrite Text_render_lines, <- place_after_indent.
  - intros [= <-]. rewrite render_S, (bind_return _ _ _ _ _ (deref_lookup _ _ _ Hself)).
    by rewrite CodeBlock_render_lines, <- place_after_indent.
  - intros [= <-]. rewrite render_S, (bind_return _ _ _ _ _ (deref_lookup _ _ _ Hself)).
    by rewrite Diagram_render_lines, <- place_after_indent.
  - destruct (mapM (spec_layout fuel h) cs) as [rest|] eqn:Hrest; [|done].
    intros [= <-]. rewrite (render_Section _ _ _ _ _ _ _ Hself (Hchildren _ _ Hrest)).
    by rewrite map_app, unlines_app, place_after_indent, join_children_layout,
         section_title_line_lines.
  - destruct (mapM (spec_layout fuel h) cs) as [rest|] eqn:Hrest; [|done].
    intros [= <-]. rewrite (render_Note _ _ _ _ _ _ _ _ Hself (Hchildren _ _ Hrest)).
    rewrite (note_head_layout title md (mul "  " indent)).
    by rewrite unlines_children_layout, <- unlines_app, <- map_app.
Qed.

(** Where [render] returns, the layout is defined. *)
Lemma render_return_spec_layout fuel h indent self s h' :
  render fuel self indent h = (Return s, h') ->
  is_Some (spec_layout fuel h self).
Proof.
  revert self s h'. induction fuel as [|fuel IH]; intros self s h' E; [done|].
  destruct (h !! self) as [o|] eqn:Hself; cycle 1.
  { revert E. rewrite render_S. unfold bind, deref. by rewrite Hself. }
  assert (Hchildren : is_Some (mapM (spec_layout fuel h) (children o))).
  { apply mapM_is_Some_2, Forall_forall. intros c Hc.
    destruct (render_return_child _ _ _ _ _ _ _ _ Hself Hc E) as [s' E'].
    by eapply IH. }
  cbn [spec_layout]. rewrite Hself.
  destruct o as [ | | | | |title cs|title cs md]; try done.
  - destruct Hchildren as [rest Hrest]. unfold children in Hrest.
    simpl in Hrest. by rewrite Hrest.
  - destruct Hchildren as [rest Hrest]. unfold children in Hrest.
    simpl in Hrest. by rewrite Hrest.
Qed.

(** Every line of a layout is one line, where the fields written on one
    indented line hold no line feed. *)
Lemma spec_layout_one_line fuel h self ls :
  (forall r o, rtc (child h) self r -> h !! r = Some o -> one_line_fields o = true) ->
  spec_layout fuel h self = Some ls ->
  Forall (fun line => one_line line.2 = true) ls.
Proof.
  revert self ls. induction fuel as [|fuel IH]; intros self ls Hfields; [done|].
  cbn [spec_layout]. destruct (h !! self) as [o|] eqn:Hself; [|done].
  pose proof (Hfields self o (rtc_refl _ _) Hself) as Ho.
  assert (Hmarked : forall b (xs : list string),
             Forall (fun l => one_line l = true) xs ->
             Forall (fun line : bool * string => one_line line.2 = true)
                    (map (pair b) xs)).
  { intros b xs Hxs. apply Forall_map. by eapply Forall_impl; [exact Hxs|]. }
  assert (Hchildren : forall rest,
             mapM (spec_layout fuel h) (children o) = Some rest ->
             Forall (Forall (fun line : bool * string => one_line line.2 = true))
                    rest).
  { intros rest Hrest%mapM_Some_1.
    assert (Hreach : forall c, c ∈ children o ->
               forall r o', rtc (child h) c r -> h !! r = Some o' ->
                            one_line_fields o' = true).
    { intros c Hc r o' Hr. apply Hfields. by eapply child_rtc_step. }
    clear -IH Hrest Hreach.
    induction Hrest as [|c ls' cs rest Hc _ IHrest]; constructor.
    - eapply IH; [|exact Hc]. apply Hreach. by left.
    - apply IHrest. intros c' Hc'. apply Hreach. by right. }
  destruct o as [text|text level|content|code language|content ty
                |title cs|title cs md]; simpl in Ho.
  - intros <-%(inj Some). apply (Hmarked true ["# " +:+ text]). repeat constructor.
    by rewrite one_line_app, Ho.
  - intros <-%(inj Some). apply (Hmarked true [mul "#" level +:+ " " +:+ text]).
    repeat constructor. by rewrite !one_line_app, one_line_mul, Ho.
  - intros <-%(inj Some). apply (Hmarked true), split_nl_one_line.
  - intros <-%(inj Some).
    apply (Hmarked true (("```" +:+ language) :: split_nl code ++ ["```"])).
    constructor; [by rewrite one_line_app, Ho|].
    apply Forall_app. split; [apply split_nl_one_line|by repeat constructor].
  - intros <-%(inj Some).
    apply (Hmarked true (("[Diagram: " +:+ ty +:+ "]")
                           :: split_nl content ++ ["[End Diagram]"])).
    constructor; [by rewrite !one_line_app, Ho|].
    apply Forall_app. split; [apply split_nl_one_line|by repeat constructor].
  - destruct (mapM (spec_layout fuel h) cs) as [rest|] eqn:Hrest; [|done].
    intros <-%(inj Some). apply Forall_app. split.
    + apply (Hmarked true). destruct (truthy title); repeat constructor.
      by rewrite one_line_app, Ho.
    + apply Forall_concat. by apply Hchildren.
  - destruct (mapM (spec_layout fuel h) cs) as [rest|] eqn:Hrest; [|done].
    intros <-%(inj Some). apply Forall_app. split.
    + apply (Hmarked false). apply Forall_app. split; [apply split_nl_one_line|].
      constructor; [done|]. destruct md as [|kv md']; [constructor|].
      constructor; [done|]. apply Forall_app. split; [|by repeat constructor].
      apply Forall_concat, Forall_map, Forall_forall.
      intros [k v] _. apply split_nl_one_line.
    + apply Forall_concat, Forall_map.
      eapply Forall_impl; [by apply Hchildren|]. intros ls' Hls'.
      apply Forall_app. split; [done|]. by repeat constructor.
Qed.

(** C3, as the code has it.  The indentation of a call is exactly
    [2 * indent] spaces.  For every node, documents included, and every
    depth that is not negative, when none of the fields written on one
    indented line (heading and subheading text, code language, diagram
    type, section title) holds a line feed: the lines of what
    [render(indent)] returns are, one for one, the lines of the layout of
    the node, those of leaves and the title lines of sections after
    exactly that indentation, and those a [Note] writes itself (title,
    metadata, blank lines) at the left margin; the children of a [Note]
    are indented as everywhere else.  On a tree no deeper than the
    recursion limit [render] does return. *)
Theorem render_places_spec_layout (h : heap) (self : ref) (indent : Z)
    (fuel : nat) :
  0 <= indent ->
  (forall r o, rtc (child h) self r -> h !! r = Some o ->
               one_line_fields o = true) ->
  mul "  " indent = repeat_nat " " (Z.to_nat (2 * indent)) /\
  String.length (mul "  " indent) = Z.to_nat (2 * indent) /\
  (forall s h',
      render fuel self indent h = (Return s, h') ->
      exists ls,
        spec_layout fuel h self = Some ls /\
        s = unlines (map (place (mul "  " indent)) ls) /\
        lines s = map (place (mul "  " indent)) ls) /\
  (depth_within fuel h self = true ->
   exists s, render fuel self indent h = (Return s, h)).
Proof.
  intros Hindent Hfields. split; [apply mul_two_spaces|]. split.
  { rewrite mul_two_spaces, length_repeat_nat. simpl. lia. }
  split; [|apply render_total].
  intros s h' E.
  destruct (render_return_spec_layout _ _ _ _ _ _ E) as [ls Hls].
  exists ls. split; [done|].
  pose proof (render_spec_layout _ _ indent _ _ Hls) as E'.
  rewrite E in E'. injection E' as -> _. split; [done|].
  apply lines_unlines, Forall_map.
  eapply Forall_impl; [by eapply spec_layout_one_line|].
  intros [b l] Hl. unfold place. cbn [fst snd] in *. destruct b; [|done].
  by rewrite one_line_app, one_line_mul, Hl.
Qed.

Lemma render_places_spec_layout_witness :
  let h := [Note "N" [1; 2]%nat [("k", "v")]; Section "S" [3%nat];
            Heading "H"; Text ("a" +:+ nl +:+ " b")] in
  let s := "# N" +:+ nl +:+ nl +:+
           "---" +:+ nl +:+ "k: v" +:+ nl +:+ "---" +:+ nl +:+ nl +:+
           "    ## S" +:+ nl +:+ "    a" +:+ nl +:+ "     b" +:+ nl +:+ nl +:+
           "    # H" +:+ nl +:+ nl in
  0 <= 2 /\
  render 3 0 2 h = (Return s, h) /\
  spec_layout 3 h 0
  = Some [(false, "# N"); (false, ""); (false, "---"); (false, "k: v");
          (false, "---"); (false, "");
          (true, "## S"); (true, "a"); (true, " b"); (false, "");
          (true, "# H"); (false, "")] /\
  lines s
  = ["# N"; ""; "---"; "k: v"; "---"; "";
     "    ## S"; "    a"; "     b"; ""; "    # H"; ""].
Proof.
  intros h s.
  assert (Hindent : 0 <= 2) by lia.
  assert (Hfields : forall r o, rtc (child h) 0%nat r -> h !! r = Some o ->
                                one_line_fields o = true).
  { intros r o _. destruct r as [|[|[|[|r]]]]; simpl; intros Ho; by simplify_eq. }
  destruct (render_places_spec_layout h 0%nat 2 3 Hindent Hfields)
    as (_ & _ & Hlayout & _).
  destruct (Hlayout s h eq_refl) as (ls & Hls & _ & Hlines).
  split; [exact Hindent|]. split; [reflexivity|].
  vm_compute in Hls. injection Hls as <-. split; [reflexivity|].
  rewrite Hlines. reflexivity.
Defined.
